(** * Kickoff: the league graph, the path enumerator and the prediction engine

    A shallow embedding of [models.py] (Match, MatchDetails, Team, League
    and the operations that build a league) and of
    [controllers/optimization.py] ([predict], [_find_all_paths] with its
    inner [dfs], and [calculate_optimal_fouls]), followed by the properties
    of the enumerator, of the weighted prediction, of the league operations
    and of the foul ranges.

    Conventions of the embedding.
    - A [Team] object is a cell of the object store addressed by the team's
      name: the only constructor call of models.py is in [add_team], which stores
      [Team(name=name, ...)] under the key [name], so the attribute [name]
      of a team is its address and a reference to a team is that string.
      The dataclass equality [==] of two teams of one league is therefore
      equality of their names.
    - Python [int] is [Z]. A Python [float] and a numpy [float64] are IEEE
      754 binary64 numbers ([spec_float] with 53 bits of mantissa), every
      operation rounding as the hardware does; [numpy.average] is modelled
      from numpy's implementation, with its order of summation.
    - Exceptions are values of [Exception]; a computation that may raise
      returns a [Result]. *)

From Stdlib Require Import ZArith QArith Lia SpecFloat.
From stdpp Require Import gmap strings list pretty sorting.

Open Scope Z_scope.

(** ** Exceptions and the error monad *)

Inductive Exception : Type :=
  | KeyError            (* dict[key] with an absent key, set.remove of an absent element *)
  | IndexError          (* list.pop() on an empty list *)
  | ZeroDivisionError   (* 1 / 0, and numpy.average with weights summing to zero *)
  | TypeError           (* numpy.average with sequences of different shapes *)
  | OverflowError       (* an int too large to convert to a float *)
  | OutOfFuel.          (* the budget of nested calls is used up: the
                           interpreter's RecursionError *)

Inductive Result (A : Type) : Type :=
  | Ok (a : A)
  | Raise (e : Exception).
Arguments Ok {A} a.
Arguments Raise {A} e.

#[global] Instance Result_ret : MRet Result := fun A a => Ok a.
#[global] Instance Result_bind : MBind Result := fun A B f r =>
  match r with
  | Ok a => f a
  | Raise e => Raise e
  end.

(** [for x in xs: body], the body threading a state and possibly raising. *)
Fixpoint for_each {A S : Type} (body : A -> S -> Result S) (xs : list A) (s : S)
  : Result S :=
  match xs with
  | [] => Ok s
  | x :: xs' =>
      match body x s with
      | Ok s' => for_each body xs' s'
      | Raise e => Raise e
      end
  end.

(** ** Floats *)

(** A Python [float] and a numpy [float64]: binary64, that is 53 bits of
    mantissa and exponents below 1024. [SpecFloat] gives the operations,
    each rounding the exact result to the nearest float, ties to even. *)
Abbreviation float := spec_float.

Definition mant_dig : Z := 53.    (* sys.float_info.mant_dig *)
Definition max_exp : Z := 1024.   (* sys.float_info.max_exp *)

(** [x + y], [x * y] and numpy's [x / y] on floats; none of them raises. *)
Definition float_add : float -> float -> float := SFadd mant_dig max_exp.
Definition float_mul : float -> float -> float := SFmul mant_dig max_exp.
Definition float_div : float -> float -> float := SFdiv mant_dig max_exp.

(** [x == 0.0], true of both zeros and false of a NaN. *)
Definition float_is_zero (x : float) : bool := SFeqb x (S754_zero false).

(** The float nearest to the int [z]: what a C cast of a 64-bit integer to
    [double] gives, and what Python's conversion gives when it does not
    raise. The result is infinite when [z] is beyond the largest float. *)
Definition float_of_int (z : Z) : float :=
  binary_normalize mant_dig max_exp z 0 false.

(** The implicit conversion of the int operand of [int * float]:
    [OverflowError: int too large to convert to float]. *)
Definition int_to_float (z : Z) : Result float :=
  match float_of_int z with
  | S754_infinity _ => Raise OverflowError
  | x => Ok x
  end.

(** The int [z] as a binary number with exponent 0, not rounded. *)
Definition exact_int (z : Z) : float :=
  match z with
  | 0 => S754_zero false
  | Zpos p => S754_finite false p 0
  | Zneg p => S754_finite true p 0
  end.

(** The float nearest to the rational [a / b], for [b <> 0]: the division
    of [SpecFloat] rounds the exact quotient of its two arguments whatever
    the size of their mantissas. *)
Definition nearest_quotient (a b : Z) : float :=
  float_div (exact_int a) (exact_int b).

(** ** models.py *)

Module MatchDetails.
Record t : Type := mk {
  team : string;
  fouls : Z;
  shots : Z;
  shots_on_target : Z;
  red_cards : Z;
  yellow_cards : Z;
  half_time_goals : Z;
  full_time_goals : Z;
  referee : string
}.
End MatchDetails.

Module Match.
Record t : Type := mk {
  season : string;
  home_team : string;
  away_team : string;
  order : Z;
  details : gmap string MatchDetails.t;
  result : option string
}.

(** [Match.get_other_team]: the away team when [known_team] is the home
    team, the home team in every other case. *)
Definition get_other_team (self : t) (known_team : string) : string :=
  if bool_decide (known_team = home_team self) then away_team self
  else home_team self.
End Match.

Module Team.
(** The attribute [name] is the address of the cell (see the header). *)
Record t : Type := mk {
  matches : list Match.t;
  seasons : gset string
}.
End Team.

Module League.
Record t : Type := mk { _teams : gmap string Team.t }.

Definition team_in_league (self : t) (name : string) : bool :=
  bool_decide (is_Some (_teams self !! name)).

(** [League.get_team]: [self._teams[name]]; the result is the reference
    to the team, that is its name. *)
Definition get_team (self : t) (name : string) : Result string :=
  match _teams self !! name with
  | Some _ => Ok name
  | None => Raise KeyError
  end.

(** [team.matches] for a reference [team]. A reference held by a match
    always designates a team object; a name with no cell has no matches. *)
Definition matches (self : t) (team : string) : list Match.t :=
  match _teams self !! team with
  | Some c => Team.matches c
  | None => []
  end.
End League.

(** ** controllers/optimization.py: the enumerator *)

(** The variables captured or shared by the calls of [dfs]: the result list
    [paths], the set [visited] and the single list object [path] that every
    recursive call receives and mutates. *)
Record DfsState : Type := mkDfs {
  paths : list (list Match.t);
  visited : gset string;
  path : list Match.t
}.

(** [paths.append(path.copy())] *)
Definition record_path (st : DfsState) : DfsState :=
  mkDfs (paths st ++ [path st]) (visited st) (path st).

(** [visited.add(team.name)] *)
Definition visited_add (name : string) (st : DfsState) : DfsState :=
  mkDfs (paths st) ({[name]} ∪ visited st) (path st).

(** [visited.remove(team.name)], which raises on an absent element. *)
Definition visited_remove (name : string) (st : DfsState) : Result DfsState :=
  if bool_decide (name ∈ visited st)
  then Ok (mkDfs (paths st) (visited st ∖ {[name]}) (path st))
  else Raise KeyError.

(** [path.append(match)] *)
Definition path_append (m : Match.t) (st : DfsState) : DfsState :=
  mkDfs (paths st) (visited st) (path st ++ [m]).

(** [path.pop()], which raises on an empty list. *)
Definition path_pop (st : DfsState) : Result DfsState :=
  match path st with
  | [] => Raise IndexError
  | _ :: _ => Ok (mkDfs (paths st) (visited st) (removelast (path st)))
  end.

Section Enumerator.
Variable league : League.t.
Variables (away_team : string) (season : string) (depth : Z).

(** [path and path[-1].away_team == away_team] *)
Definition path_complete (p : list Match.t) : bool :=
  match last p with
  | Some m => bool_decide (Match.away_team m = away_team)
  | None => false
  end.

(** The condition of the [continue] at lines 129-133. *)
Definition skip_match (m : Match.t) (other_team : string) (at_home : bool)
    (visited : gset string) : bool :=
  negb (bool_decide (Match.season m = season))
  || bool_decide (other_team ∈ visited)
  || (negb at_home && bool_decide (Match.away_team m = other_team))
  || (at_home && bool_decide (Match.home_team m = other_team)).

Fixpoint dfs (fuel : nat) (team : string) (at_home : bool) (st : DfsState)
  : Result DfsState :=
  match fuel with
  | O => Raise OutOfFuel
  | S fuel' =>
      if Z.of_nat (length (path st)) >? depth then Ok st
      else if path_complete (path st) then Ok (record_path st)
      else
        st' ← for_each
               (fun m s =>
                  let other_team := Match.get_other_team m team in
                  if skip_match m other_team at_home (visited s) then Ok s
                  else
                    s' ← dfs fuel' other_team (negb at_home) (path_append m s);
                    path_pop s')
               (League.matches league team)
               (visited_add team st);
        visited_remove team st'
  end.
End Enumerator.

(** The number of nested calls the guard [len(path) > depth] allows: the
    call at nesting level [k] has [len(path) = k], and the call with
    [len(path) = depth + 1] returns at once. *)
Definition dfs_fuel (depth : Z) : nat := Z.to_nat depth + 2.

Definition _find_all_paths (league : League.t) (home_team away_team : string)
    (season : string) (depth : Z) : Result (list (list Match.t)) :=
  st ← dfs league away_team season depth (dfs_fuel depth) home_team true
         (mkDfs [] ∅ []);
  Ok (paths st).

(** ** controllers/optimization.py: the prediction *)

(** [d[key]] on a dict *)
Definition dict_get {V : Type} (d : gmap string V) (key : string) : Result V :=
  match d !! key with
  | Some v => Ok v
  | None => Raise KeyError
  end.

(** [a / b] on two ints: true division, the float nearest to the quotient
    ([ZeroDivisionError: division by zero],
    [OverflowError: integer division result too large for a float]). *)
Definition true_div (a b : Z) : Result float :=
  if b =? 0 then Raise ZeroDivisionError
  else
    match nearest_quotient a b with
    | S754_infinity _ => Raise OverflowError
    | q => Ok q
    end.

(** *** numpy: sums *)

(** [res += a[i]] from left to right. *)
Definition sum_from (init : float) (xs : list float) : float :=
  foldl float_add init xs.

(** The loop over the full blocks of 8 elements that follow the first one:
    [r[j] += a[i + j]] for the 8 accumulators [r]. *)
Fixpoint accumulate (k : nat) (r xs : list float) : list float :=
  match k with
  | O => r
  | S k' => accumulate k' (zip_with float_add r (take 8 xs)) (drop 8 xs)
  end.

(** [((r[0] + r[1]) + (r[2] + r[3])) + ((r[4] + r[5]) + (r[6] + r[7]))];
    the list always has 8 elements. *)
Definition combine8 (r : list float) : float :=
  match r with
  | [r0; r1; r2; r3; r4; r5; r6; r7] =>
      float_add (float_add (float_add r0 r1) (float_add r2 r3))
                (float_add (float_add r4 r5) (float_add r6 r7))
  | _ => S754_nan
  end.

(** The unrolled branch of numpy's pairwise sum, for 8 to 128 elements: 8
    accumulators start as the first 8 elements and receive the other full
    blocks of 8, they are combined, and the [n mod 8] last elements are
    added one by one. *)
Definition sum_unrolled (xs : list float) : float :=
  let n := length xs in
  let r := accumulate (n / 8 - 1) (take 8 xs) (drop 8 xs) in
  sum_from (combine8 r) (drop (8 * (n / 8)) xs).

(** numpy's [pairwise_sum] on a contiguous float64 array: fewer than 8
    elements are added to 0.0 from left to right; up to 128 elements take
    the unrolled branch; a longer array is split at [n / 2] rounded down to
    a multiple of 8 and the sums of the two parts are added. Each part is
    shorter than the whole, so the budget [length xs] of [pairwise_sum] is
    never used up ([pairwise_sum_rec_fuel]). *)
Fixpoint pairwise_sum_rec (fuel : nat) (xs : list float) : float :=
  let n := length xs in
  if (n <? 8)%nat then sum_from (S754_zero false) xs
  else if (n <=? 128)%nat then sum_unrolled xs
  else
    match fuel with
    | O => S754_nan
    | S fuel' =>
        let n2 := (n / 2 - (n / 2) mod 8)%nat in
        float_add (pairwise_sum_rec fuel' (take n2 xs))
                  (pairwise_sum_rec fuel' (drop n2 xs))
    end.

Definition pairwise_sum (xs : list float) : float :=
  pairwise_sum_rec (length xs) xs.

(** [x.sum()] on a float64 array [x]: the result starts as the identity 0.0
    of the addition and receives the pairwise sum of the elements. (A numpy
    that starts from -0.0 differs only on arrays of -0.0 alone, which
    [predict] never builds.) *)
Definition np_sum (xs : list float) : float :=
  float_add (S754_zero false) (pairwise_sum xs).

(** [x.sum()] on an array of Python objects holding floats: the reduction
    uses no identity, it starts from the first element and adds the others
    from left to right. Such an array of [np_average] is never empty. *)
Definition np_sum_objects (xs : list float) : float :=
  match xs with
  | [] => S754_zero false
  | x :: xs' => sum_from x xs'
  end.

(** *** numpy: [average] *)

(** The array numpy builds from a list of Python ints holds machine
    integers (or their floats) when every int lies between the least int64
    and the greatest uint64, and references to the Python ints as soon as
    one does not. *)
Definition fits_machine_int (z : Z) : bool :=
  (- 2 ^ 63 <=? z) && (z <? 2 ^ 64).

(** [numpy.multiply(a, weights, dtype=object)]: each product is Python's
    [int * float], which first converts the int. *)
Fixpoint multiply_objects (a : list Z) (weights : list float)
  : Result (list float) :=
  match a, weights with
  | x :: a', w :: weights' =>
      fx ← int_to_float x;
      products ← multiply_objects a' weights';
      Ok (float_mul fx w :: products)
  | _, _ => Ok []
  end.

(** [numpy.average(a, weights=weights)] on a list of ints and a list of
    floats, as numpy implements it: the shapes must agree ([TypeError]);
    [scl = weights.sum()] must not be zero ([ZeroDivisionError: Weights sum
    to zero, can't be normalized]); the value is
    [multiply(a, weights).sum() / scl]. With machine integers the result
    type is float64: each int is converted to the nearest float, and the
    sums are pairwise. With an array of objects the result type is
    [object]: the products and the sums are those of Python, left to
    right. *)
Definition np_average (a : list Z) (weights : list float) : Result float :=
  if negb (length a =? length weights)%nat then Raise TypeError
  else if forallb fits_machine_int a then
    let scl := np_sum weights in
    if float_is_zero scl then Raise ZeroDivisionError
    else
      Ok (float_div (np_sum (zip_with float_mul (map float_of_int a) weights))
                    scl)
  else
    let scl := np_sum_objects weights in
    if float_is_zero scl then Raise ZeroDivisionError
    else
      products ← multiply_objects a weights;
      Ok (float_div (np_sum_objects products) scl).

Definition PREDICTION_DEPTH : Z := 4.

(** The body of the inner loop: one match adds its home side's goal
    difference to [total_diff]. *)
Definition add_home_goal_diff (m : Match.t) (total_diff : Z) : Result Z :=
  home_details ← dict_get (Match.details m) (Match.home_team m);
  away_details ← dict_get (Match.details m) (Match.away_team m);
  let home_team_goals := MatchDetails.full_time_goals home_details in
  let away_team_goals := MatchDetails.full_time_goals away_details in
  let home_goal_diff := home_team_goals - away_team_goals in
  Ok (total_diff + home_goal_diff).

(** The body of the outer loop on the pair ([home_goal_diffs], [weights]). *)
Definition add_path (p : list Match.t) (acc : list Z * list float)
  : Result (list Z * list float) :=
  w ← true_div 1 (Z.of_nat (length p));
  total_diff ← for_each add_home_goal_diff p 0;
  Ok (acc.1 ++ [total_diff], acc.2 ++ [w]).

Definition predict (home away : string) (season : string) (league : League.t)
  : Result float :=
  home_team ← League.get_team league home;
  away_team ← League.get_team league away;
  ps ← _find_all_paths league home_team away_team season PREDICTION_DEPTH;
  acc ← for_each add_path ps ([], []);
  np_average acc.1 acc.2.

(** ** Representation invariants of models.py *)

(** [Team]: every match of a team's list has the team as its home or its
    away side. *)
Definition teams_wf (league : League.t) : Prop :=
  forall (t : string) (m : Match.t),
    m ∈ League.matches league t ->
    Match.home_team m = t \/ Match.away_team m = t.

(** [Match]: both participants have an entry in [details]. *)
Definition details_wf (league : League.t) : Prop :=
  forall (t : string) (m : Match.t),
    m ∈ League.matches league t ->
    is_Some (Match.details m !! Match.home_team m) /\
    is_Some (Match.details m !! Match.away_team m).

(** ** The teams a chain traverses *)

(** The source, then after each match the team the search moves to. *)
Fixpoint chain_teams (start : string) (chain : list Match.t) : list string :=
  match chain with
  | [] => [start]
  | m :: chain' => start :: chain_teams (Match.get_other_team m start) chain'
  end.

(** ** Recorded chains *)

(** [Inv team at_home vis p] stands for a property of the arguments and of
    the shared variables on entry of a call of [dfs], the call having
    [path = p] and [visited = vis]. A recorded chain is the path of a call
    that took the branch of line 121. *)
Definition Recorded (away_team : string) (depth : Z)
    (Inv : string -> bool -> gset string -> list Match.t -> Prop)
    (p : list Match.t) : Prop :=
  exists team at_home vis,
    Inv team at_home vis p /\
    Z.of_nat (length p) <= depth /\
    path_complete away_team p = true.

(** ** The search tree of [dfs] *)

Section SearchTree.
Variable league : League.t.
Variables (home_team away_team : string) (season : string) (depth : Z).

(** [Reach team at_home vis p]: some call [dfs(team, path, at_home)] of
    the run started by [_find_all_paths] has [path = p] and
    [visited = vis] on entry. *)
Inductive Reach : string -> bool -> gset string -> list Match.t -> Prop :=
  | Reach_start : Reach home_team true ∅ []
  | Reach_step team at_home vis p m :
      Reach team at_home vis p ->
      Z.of_nat (length p) <= depth ->
      path_complete away_team p = false ->
      m ∈ League.matches league team ->
      skip_match season m (Match.get_other_team m team) at_home ({[team]} ∪ vis) = false ->
      Reach (Match.get_other_team m team) (negb at_home) ({[team]} ∪ vis) (p ++ [m]).

Definition Accepted : list Match.t -> Prop :=
  Recorded away_team depth Reach.

End SearchTree.

(** ** The chains the enumerator returns *)

Definition returned (league : League.t) (home_team away_team : string)
    (season : string) (depth : Z) (chain : list Match.t) : Prop :=
  exists ps,
    _find_all_paths league home_team away_team season depth = Ok ps
    /\ chain ∈ ps.

(** ** Role alternation *)

Definition participant (x : string) (m : Match.t) : Prop :=
  Match.home_team m = x \/ Match.away_team m = x.

(** [x] is on one side in [m1] and on the other side in [m2]. *)
Definition role_flips (x : string) (m1 m2 : Match.t) : Prop :=
  (Match.home_team m1 = x /\ Match.away_team m2 = x)
  \/ (Match.away_team m1 = x /\ Match.home_team m2 = x).

(** Positions are counted from 0: the first match of a chain is at the even
    position 0. The team the search leaves on the match at position [k] is
    [chain_teams home_team chain !! k]; the team it moves to is the next
    one of that list. *)
Definition departing_roles_alternate (home_team : string)
    (chain : list Match.t) : Prop :=
  forall k m, chain !! k = Some m ->
    exists dep arr,
      chain_teams home_team chain !! k = Some dep
      /\ chain_teams home_team chain !! S k = Some arr
      /\ (if Nat.even k
          then Match.home_team m = dep /\ Match.away_team m = arr
          else Match.away_team m = dep /\ Match.home_team m = arr).

(** ** The weighted mean *)

(** The aggregate as the specification words it, to be compared with what
    [predict] computes: the goals of one side of a match, *)
Definition full_time_goals_of (m : Match.t) (side : string) : Z :=
  match Match.details m !! side with
  | Some d => MatchDetails.full_time_goals d
  | None => 0
  end.

(** the per-chain signal (home side's goals minus away side's, summed over
    the matches of the chain), *)
Definition spec_signal (chain : list Match.t) : Z :=
  foldr (fun m acc =>
           (full_time_goals_of m (Match.home_team m)
            - full_time_goals_of m (Match.away_team m)) + acc)
        0 chain.

(** the per-chain weight, 1 over the number of edges, *)
Definition spec_weight (chain : list Match.t) : Q :=
  (1 / inject_Z (Z.of_nat (length chain)))%Q.

Definition Qsum (xs : list Q) : Q := foldr Qplus 0%Q xs.

(** and the weight-normalized weighted mean of the signals, as a rational
    number. *)
Definition spec_weighted_mean (chains : list (list Match.t)) : Q :=
  (Qsum (map (fun c => spec_weight c * inject_Z (spec_signal c)) chains)
   / Qsum (map spec_weight chains))%Q.

(** The same aggregate in the arithmetic of the floats: the weight is the
    float nearest to 1 over the number of edges, each signal is converted
    to the nearest float, each product and the quotient are rounded, and
    the two sums are numpy's. *)
Definition float_weight (chain : list Match.t) : float :=
  nearest_quotient 1 (Z.of_nat (length chain)).

Definition float_weighted_mean (chains : list (list Match.t)) : float :=
  float_div
    (np_sum (map (fun c => float_mul (float_of_int (spec_signal c))
                                     (float_weight c)) chains))
    (np_sum (map float_weight chains)).

(** The rational number a finite float stands for. *)
Definition float_value (x : float) : option Q :=
  match x with
  | S754_zero _ => Some 0%Q
  | S754_finite s m e =>
      Some ((if s then inject_Z (Zneg m) else inject_Z (Zpos m)) * 2 ^ e)%Q
  | _ => None
  end.

(** Floats that are positive, infinity included. *)
Definition float_positive (x : float) : bool :=
  match x with
  | S754_infinity false => true
  | S754_finite false _ e => emin mant_dig max_exp <=? e
  | _ => false
  end.

Abbreviation positive_floats := (Forall (fun x => float_positive x = true)).

(** Goal counts of at most [2 ^ 60] in absolute value: the signal of a
    chain of at most 4 matches is then a machine integer. *)
Definition goals_bounded (league : League.t) : Prop :=
  forall (t : string) (m : Match.t) (side : string) (d : MatchDetails.t),
    m ∈ League.matches league t ->
    Match.details m !! side = Some d ->
    - 2 ^ 60 <= MatchDetails.full_time_goals d <= 2 ^ 60.

Definition has_details (m : Match.t) : Prop :=
  is_Some (Match.details m !! Match.home_team m)
  /\ is_Some (Match.details m !! Match.away_team m).

(** What the loops of [predict] need of a chain, and what the enumeration
    with depth 4 gives: at least 1 and at most 4 matches, all of them in
    the lists of the league and with the details of their two sides. *)
Definition usable_chain (league : League.t) (c : list Match.t) : Prop :=
  c <> [] /\ (length c <= 4)%nat /\ Forall has_details c
  /\ Forall (fun m => exists t, m ∈ League.matches league t) c.


(** ** A small league used to run the definitions *)

Module Sample.
Definition s1011 : string := "2010-11".

Definition det (t : string) (goals : Z) : MatchDetails.t :=
  MatchDetails.mk t 10 12 5 0 1 0 goals "M Dean".

Definition mk_match (s h a : string) (o hg ag : Z) : Match.t :=
  Match.mk s h a o
    (<[h := det h hg]> (<[a := det a ag]> ∅))
    (if hg >? ag then Some h else if ag >? hg then Some a else None).

Definition mAB : Match.t := mk_match s1011 "A" "B" 1 3 1.
Definition mAC : Match.t := mk_match s1011 "A" "C" 2 2 0.
Definition mBC : Match.t := mk_match s1011 "B" "C" 3 1 1.
Definition mAE : Match.t := mk_match s1011 "A" "E" 4 1 2.
Definition mBE : Match.t := mk_match s1011 "B" "E" 5 4 0.
Definition mBD : Match.t := mk_match s1011 "B" "D" 6 0 2.
Definition mDA : Match.t := mk_match "2011-12" "D" "A" 1 1 0.

Definition league : League.t :=
  League.mk
    (<["A" := Team.mk [mAB; mAC; mAE; mDA] {[s1011; "2011-12"]}]>
    (<["B" := Team.mk [mAB; mBC; mBE; mBD] {[s1011]}]>
    (<["C" := Team.mk [mAC; mBC] {[s1011]}]>
    (<["D" := Team.mk [mBD; mDA] {[s1011; "2011-12"]}]>
    (<["E" := Team.mk [mAE; mBE] {[s1011]}]> ∅))))).
End Sample.

(** Leagues with one chain of three matches from A to D, the first match
    won by [g] goals to nil and the other two drawn 0 - 0, alone or next to
    a direct match A 1 - 0 D. *)
Module OneChain.
Definition mAC (g : Z) : Match.t := Sample.mk_match Sample.s1011 "A" "C" 1 g 0.
Definition mBC : Match.t := Sample.mk_match Sample.s1011 "B" "C" 2 0 0.
Definition mBD : Match.t := Sample.mk_match Sample.s1011 "B" "D" 3 0 0.
Definition mAD : Match.t := Sample.mk_match Sample.s1011 "A" "D" 4 1 0.

Definition league (g : Z) : League.t :=
  League.mk
    (<["A" := Team.mk [mAC g] {[Sample.s1011]}]>
    (<["B" := Team.mk [mBC; mBD] {[Sample.s1011]}]>
    (<["C" := Team.mk [mAC g; mBC] {[Sample.s1011]}]>
    (<["D" := Team.mk [mBD] {[Sample.s1011]}]> ∅)))).

Definition league_with_direct (g : Z) : League.t :=
  League.mk
    (<["A" := Team.mk [mAD; mAC g] {[Sample.s1011]}]>
    (<["B" := Team.mk [mBC; mBD] {[Sample.s1011]}]>
    (<["C" := Team.mk [mAC g; mBC] {[Sample.s1011]}]>
    (<["D" := Team.mk [mBD; mAD] {[Sample.s1011]}]> ∅)))).
End OneChain.


(** ** models.py: the operations that build a league *)

(** [League.__init__]: no team. *)
Definition League_init : League.t := League.mk ∅.

(** [League.add_team]: a new team object with no match and no season is
    stored under [name], whatever was there, and returned (as its name). *)
Definition add_team (self : League.t) (name : string) : League.t * string :=
  (League.mk (<[name := Team.mk [] ∅]> (League._teams self)), name).

(** [team.seasons] for a reference [team], as [League.matches]. *)
Definition team_seasons (self : League.t) (team : string) : gset string :=
  match League._teams self !! team with
  | Some c => Team.seasons c
  | None => ∅
  end.

(** [League.add_season_to_team]: [self._teams[team].seasons.add(season)]. *)
Definition add_season_to_team (self : League.t) (team season : string)
  : Result League.t :=
  c ← dict_get (League._teams self) team;
  Ok (League.mk
        (<[team := Team.mk (Team.matches c) ({[season]} ∪ Team.seasons c)]>
           (League._teams self))).

(** [self._teams[team].matches.append(match)] *)
Definition append_match (self : League.t) (team : string) (m : Match.t)
  : Result League.t :=
  c ← dict_get (League._teams self) team;
  Ok (League.mk
        (<[team := Team.mk (Team.matches c ++ [m]) (Team.seasons c)]>
           (League._teams self))).

(** [League.add_match]: the dict [_teams] and the lists of its teams after
    the call. A team that [add_team] creates here is a new object stored
    under its name; the sides [match.home_team] and [match.away_team] were
    built by the caller before the call and are other objects, which the
    new one does not equal (their lists of matches differ). The store of
    this model is addressed by names and holds the league's objects only:
    it gives the keys of [_teams] and the contents of the lists in every
    case, and the identity of the sides of [m] with teams of the league
    only when the two names are in the league before the call. *)
Definition add_match (self : League.t) (team1 team2 : string) (m : Match.t)
  : Result League.t :=
  let self1 :=
    if League.team_in_league self team1 then self else (add_team self team1).1 in
  let self2 :=
    if League.team_in_league self1 team2 then self1 else (add_team self1 team2).1 in
  self3 ← append_match self2 team1 m;
  append_match self3 team2 m.

(** [League.get_team_names]. The keys come in the order of the finite map,
    not in the insertion order of the Python dict: only membership in the
    result is modelled. *)
Definition get_team_names (self : League.t) (season : option string)
  : list string :=
  let team_names := (map_to_list (League._teams self)).*1 in
  match season with
  | None => team_names
  | Some s => filter (fun team_name => s ∈ team_seasons self team_name) team_names
  end.

(** ** The hops of the search, from any call *)

Section SearchFrom.
Variable league : League.t.
Variables (away_team : string) (season : string) (depth : Z).

(** [Search team at_home vis p team' at_home' vis' q]: from a call
    [dfs(team, path, at_home)] made with [path = p] and [visited = vis],
    the hops of lines 127-136 lead to a call [dfs(team', path, at_home')]
    made with [path = q] and [visited = vis']. *)
Inductive Search : string -> bool -> gset string -> list Match.t ->
                   string -> bool -> gset string -> list Match.t -> Prop :=
  | Search_here team at_home vis p :
      Search team at_home vis p team at_home vis p
  | Search_hop team at_home vis p m team' at_home' vis' q :
      Z.of_nat (length p) <= depth ->
      path_complete away_team p = false ->
      m ∈ League.matches league team ->
      skip_match season m (Match.get_other_team m team) at_home ({[team]} ∪ vis)
      = false ->
      Search (Match.get_other_team m team) (negb at_home) ({[team]} ∪ vis)
        (p ++ [m]) team' at_home' vis' q ->
      Search team at_home vis p team' at_home' vis' q.

End SearchFrom.

(** ** controllers/optimization.py: the optimal foul ranges *)

(** A Python dict whose iteration order matters: the entries in insertion
    order, each key once. *)
Fixpoint odict_get {K V : Type} `{EqDecision K} (d : list (K * V)) (k : K)
  : option V :=
  match d with
  | [] => None
  | (k', v) :: d' => if decide (k = k') then Some v else odict_get d' k
  end.

(** [d[k] = v]: a present key keeps its place, a new key goes last. *)
Fixpoint odict_set {K V : Type} `{EqDecision K} (d : list (K * V)) (k : K) (v : V)
  : list (K * V) :=
  match d with
  | [] => [(k, v)]
  | (k', v') :: d' =>
      if decide (k = k') then (k, v) :: d' else (k', v') :: odict_set d' k v
  end.

(** [if k not in d: d[k] = 0] followed by [d[k] += n]. *)
Definition odict_add {K : Type} `{EqDecision K} (d : list (K * Z)) (k : K) (n : Z)
  : list (K * Z) :=
  let d1 := if odict_get d k is Some _ then d else odict_set d k 0 in
  odict_set d1 k (default 0 (odict_get d1 k) + n).

(** What a call can do besides returning or raising one of the exceptions
    above: [max] of an empty list raises [ValueError]. *)
Inductive Outcome (A : Type) : Type :=
  | Returns (a : A)
  | Raises (e : Exception)
  | RaisesValueError.
Arguments Returns {A} a.
Arguments Raises {A} e.
Arguments RaisesValueError {A}.

(** [range(0, stop, 4)] *)
Definition range_by_4 (stop : Z) : list Z :=
  (fun k => 4 * k) <$> seqZ 0 ((stop + 3) / 4).

(** [str(i) + " - " + str(i + 3)] *)
Definition range_str (i : Z) : string :=
  pretty i +:+ " - " +:+ pretty (i + 3).

(** The body of the loop of lines 43-50 on [range_mappings]. *)
Definition map_range (i : Z) (range_mappings : gmap Z string) : gmap Z string :=
  let range_str := range_str i in
  <[i + 3 := range_str]>
    (<[i + 2 := range_str]> (<[i + 1 := range_str]> (<[i := range_str]>
       range_mappings))).

(** [sorted(l, key=lambda a: a[1], reverse=True)]: greatest count first;
    Python's sort is stable, also with [reverse=True], so entries with the
    same count keep their order. *)
Fixpoint insert_by_count (x : string * Z * string)
    (l : list (string * Z * string)) : list (string * Z * string) :=
  match l with
  | [] => [x]
  | y :: l' =>
      if y.1.2 <=? x.1.2 then x :: y :: l' else y :: insert_by_count x l'
  end.

Definition sorted_by_count_desc (l : list (string * Z * string))
  : list (string * Z * string) :=
  foldr insert_by_count [] l.

(** [l[:stop]], a negative [stop] counting from the end. *)
Definition slice_to {A : Type} (l : list A) (stop : Z) : list A :=
  if 0 <=? stop then take (Z.to_nat stop) l
  else take (Z.to_nat (Z.of_nat (length l) + stop)) l.

Section OptimalFouls.
(** [utils.league.get_all_matches] is not part of the sources at hand, and
    [str(round(wins / len(matches) * 100, 2)) + "%"] formats a float:
    both are parameters. *)
Variable get_all_matches : League.t -> list Match.t.
Variable percent_str : Z -> nat -> string.

(** The body of the loop of lines 30-38 on [foul_wins]. *)
Definition count_win (team : option string) (m : Match.t)
    (foul_wins : list (Z * Z)) : Result (list (Z * Z)) :=
  match Match.result m with
  | Some r =>
      if bool_decide (Some r = team) || bool_decide (team = None) then
        d ← dict_get (Match.details m) (if team is Some t then t else r);
        let fouls := MatchDetails.fouls d in
        Ok (odict_add foul_wins fouls 1)
      else Ok foul_wins
  | None => Ok foul_wins
  end.

(** The body of the loop of lines 53-57 on [foul_range_wins]. *)
Definition count_range (range_mappings : gmap Z string) (entry : Z * Z)
    (foul_range_wins : list (string * Z)) : Result (list (string * Z)) :=
  match range_mappings !! entry.1 with
  | Some range_mapping => Ok (odict_add foul_range_wins range_mapping entry.2)
  | None => Raise KeyError
  end.

(** Lines 24-27: the matches looked at. *)
Definition select_matches (league : League.t) (team : option string)
  : Result (list Match.t) :=
  match team with
  | None => Ok (get_all_matches league)
  | Some t => t' ← League.get_team league t; Ok (League.matches league t')
  end.

Definition calculate_optimal_fouls (league : League.t) (team : option string)
    (topx : Z) : Outcome (list (string * Z * string)) :=
  match select_matches league team with
  | Raise e => Raises e
  | Ok matches =>
      match for_each (count_win team) matches [] with
      | Raise e => Raises e
      | Ok foul_wins =>
          match foul_wins.*1 with
          | [] => RaisesValueError
          | k :: ks =>
              let max_fouls := foldl Z.max k ks in
              let range_mappings :=
                foldl (fun rm i => map_range i rm) ∅ (range_by_4 (max_fouls + 1)) in
              match for_each (count_range range_mappings) foul_wins [] with
              | Raise e => Raises e
              | Ok foul_range_wins =>
                  let optimal_fouls :=
                    (fun e : string * Z =>
                       (e.1, e.2, percent_str e.2 (length matches)))
                    <$> foul_range_wins in
                  Returns (slice_to (sorted_by_count_desc optimal_fouls) topx)
              end
          end
      end
  end.
End OptimalFouls.

(** The fouls that the loop of lines 30-38 counts, in the order of the
    matches: for a given team its fouls in the matches it won, without a
    team the winner's fouls in every match that has one. *)
Definition collect_win (team : option string) (m : Match.t) (fs : list Z)
  : Result (list Z) :=
  match Match.result m with
  | Some r =>
      if bool_decide (Some r = team) || bool_decide (team = None) then
        d ← dict_get (Match.details m) (if team is Some t then t else r);
        Ok (fs ++ [MatchDetails.fouls d])
      else Ok fs
  | None => Ok fs
  end.

Definition won_fouls (team : option string) (matches : list Match.t)
  : Result (list Z) :=
  for_each (collect_win team) matches [].

(** The label of the range of four that holds [f]. *)
Definition range_label (f : Z) : string := range_str (4 * (f / 4)).

(** The sum of the counts of the entries whose key satisfies [P]. *)
Definition odict_mass {K : Type} (P : K -> Prop) `{forall k, Decision (P k)}
    (d : list (K * Z)) : Z :=
  foldr (fun e acc => (if decide (P e.1) then e.2 else 0) + acc) 0 d.

(** The sum of the counts of a result. *)
Definition total_count (l : list (string * Z * string)) : Z :=
  foldr (fun e acc => e.1.2 + acc) 0 l.

(** A second league, with fouls that differ from match to match. *)
Module Fouls.
Definition mk_match (s h a : string) (o hg ag hf af : Z) : Match.t :=
  Match.mk s h a o
    (<[h := MatchDetails.mk h hf 12 5 0 1 0 hg "M Dean"]>
       (<[a := MatchDetails.mk a af 9 3 0 2 0 ag "M Dean"]> ∅))
    (if hg >? ag then Some h else if ag >? hg then Some a else None).

Definition m1 : Match.t := mk_match "2010-11" "A" "B" 1 3 1 9 14.
Definition m2 : Match.t := mk_match "2010-11" "A" "C" 2 2 0 10 7.
Definition m3 : Match.t := mk_match "2010-11" "B" "A" 3 0 1 12 13.
Definition m4 : Match.t := mk_match "2010-11" "C" "A" 4 2 2 8 8.
Definition m5 : Match.t := mk_match "2010-11" "C" "B" 5 1 0 5 11.
Definition m6 : Match.t := mk_match "2010-11" "A" "B" 6 4 0 13 20.

Definition league : League.t :=
  League.mk
    (<["A" := Team.mk [m1; m2; m3; m4; m6] {["2010-11"]}]>
    (<["B" := Team.mk [m1; m3; m5; m6] {["2010-11"]}]>
    (<["C" := Team.mk [m2; m4; m5] {["2010-11"]}]> ∅))).

Definition all_matches (l : League.t) : list Match.t := [m1; m2; m3; m4; m5; m6].
Definition percent (wins : Z) (n : nat) : string :=
  pretty wins +:+ "/" +:+ pretty n.
End Fouls.

(** * Proofs *)

Lemma bind_Ok {A B : Type} (f : A -> Result B) (a : A) : (Ok a ≫= f) = f a.
Proof. reflexivity. Qed.

Lemma chain_teams_length start chain :
  length (chain_teams start chain) = S (length chain).
Proof.
  revert start. induction chain as [|m chain IH]; intros start; simpl; [done|].
  by rewrite IH.
Qed.

Lemma chain_teams_snoc start chain m ts t :
  chain_teams start chain = ts ++ [t] ->
  chain_teams start (chain ++ [m]) = (ts ++ [t]) ++ [Match.get_other_team m t].
Proof.
  revert start ts. induction chain as [|m' chain IH]; intros start ts H; simpl in *.
  - destruct ts as [|x [|y ts]]; simplify_eq/=; done.
  - destruct ts as [|x ts]; simpl in *.
    + pose proof (chain_teams_length (Match.get_other_team m' start) chain) as Hl.
      injection H as _ H. rewrite H in Hl. simpl in Hl. lia.
    + injection H as -> H. f_equal. by apply IH.
Qed.

Lemma chain_teams_head start chain :
  head (chain_teams start chain) = Some start.
Proof. by destruct chain. Qed.

(** ** The calls of [dfs] preserve any invariant of the search *)

Section Invariant.
Variable league : League.t.
Variables (away_team : string) (season : string) (depth : Z).

Abbreviation run_dfs := (dfs league away_team season depth).
Abbreviation complete := (path_complete away_team).
Abbreviation skipped := (skip_match season).

(** [Inv team at_home vis p] is any property of the arguments and of the
    shared variables on entry of a call, the call having [path = p] and
    [visited = vis], that the hop of lines 135-136 carries to the callee. *)
Variable Inv : string -> bool -> gset string -> list Match.t -> Prop.
Hypothesis Inv_step : forall team at_home vis p m,
  Inv team at_home vis p ->
  Z.of_nat (length p) <= depth ->
  complete p = false ->
  m ∈ League.matches league team ->
  skipped m (Match.get_other_team m team) at_home ({[team]} ∪ vis) = false ->
  Inv (Match.get_other_team m team) (negb at_home) ({[team]} ∪ vis) (p ++ [m]).

Abbreviation recorded := (Recorded away_team depth Inv).

Lemma skip_match_false m other at_home vis :
  skipped m other at_home vis = false ->
  Match.season m = season /\ (other ∉ vis) /\
  (at_home = false -> Match.away_team m <> other) /\
  (at_home = true -> Match.home_team m <> other).
Proof.
  unfold skip_match. intros H.
  repeat (apply orb_false_elim in H as [H ?]).
  apply negb_false_iff, bool_decide_eq_true in H.
  rename select (bool_decide _ = false) into Hvis.
  apply bool_decide_eq_false in Hvis.
  split; [done|]. split; [done|].
  split; intros ->; simpl in *;
    rename select (bool_decide (_ = other) = false) into Hne;
    by apply bool_decide_eq_false in Hne.
Qed.

Lemma path_pop_append s m :
  path_pop (mkDfs (paths s) (visited s) (path s ++ [m]))
  = Ok (mkDfs (paths s) (visited s) (path s)).
Proof.
  unfold path_pop; simpl. destruct (path s ++ [m]) eqn:E.
  - by destruct (path s).
  - rewrite <- E, removelast_last. done.
Qed.

(** The loop of lines 127-137, given what the recursive calls do. *)
Lemma loop_sound (rec : string -> bool -> DfsState -> Result DfsState)
    (body : Match.t -> DfsState -> Result DfsState) team at_home vis p :
  (forall m s,
      body m s =
      if skipped m (Match.get_other_team m team) at_home (visited s) then Ok s
      else rec (Match.get_other_team m team) (negb at_home) (path_append m s)
             ≫= path_pop) ->
  (forall m s,
      m ∈ League.matches league team ->
      visited s = vis -> path s = p ++ [m] ->
      skipped m (Match.get_other_team m team) at_home vis = false ->
      exists new,
        rec (Match.get_other_team m team) (negb at_home) s
        = Ok (mkDfs (paths s ++ new) vis (p ++ [m]))
        /\ Forall recorded new) ->
  forall ms s,
    ms ⊆ League.matches league team ->
    visited s = vis -> path s = p ->
    exists new,
      for_each body ms s = Ok (mkDfs (paths s ++ new) vis p)
      /\ Forall recorded new.
Proof.
  intros Hbody Hrec. induction ms as [|m ms IH]; intros s Hsub Hv Hp.
  - exists []. rewrite app_nil_r. destruct s; simpl in *; by subst.
  - assert (m ∈ League.matches league team) as Hm by (apply Hsub; left).
    assert (ms ⊆ League.matches league team) as Hsub'
        by (intros x Hx; apply Hsub; by right).
    cbn [for_each]. rewrite Hbody, Hv.
    destruct (skipped m (Match.get_other_team m team) at_home vis) eqn:Hskip.
    + by apply IH.
    + destruct (Hrec m (path_append m s) Hm) as (new1 & Hrun1 & Hnew1);
        [done | by simpl; rewrite Hp | done |].
      simpl in Hrun1. rewrite Hrun1.
      pose proof (path_pop_append (mkDfs (paths s ++ new1) vis p) m) as Hpop.
      simpl in Hpop. rewrite bind_Ok, Hpop.
      destruct (IH (mkDfs (paths s ++ new1) vis p) Hsub' eq_refl eq_refl)
        as (new2 & -> & Hnew2).
      exists (new1 ++ new2). simpl. rewrite app_assoc. split; [done|].
      by apply Forall_app.
Qed.

(** A call of [dfs] on a team that is not in [visited], with fuel for the
    calls the depth guard lets through, returns normally; it leaves
    [visited] and [path] as it found them and only appends recorded
    chains to [paths]. *)
Lemma dfs_sound fuel : forall team at_home st,
  team ∉ visited st ->
  Inv team at_home (visited st) (path st) ->
  (1 <= fuel)%nat ->
  depth + 2 <= Z.of_nat (length (path st)) + Z.of_nat fuel ->
  exists new,
    run_dfs fuel team at_home st
    = Ok (mkDfs (paths st ++ new) (visited st) (path st))
    /\ Forall recorded new.
Proof.
  induction fuel as [|fuel IH]; intros team at_home st Hfresh Hreach Hf1 Hf; [lia|].
  simpl.
  destruct (Z.gtb_spec (Z.of_nat (length (path st))) depth) as [Hgt|Hle].
  { exists []. rewrite app_nil_r. by destruct st. }
  destruct (complete (path st)) eqn:Hc.
  { exists [path st]. split; [done|]. constructor; [|done].
    by exists team, at_home, (visited st). }
  match goal with |- context [for_each ?body _ _] =>
    destruct (loop_sound (run_dfs fuel) body
                team at_home ({[team]} ∪ visited st) (path st))
      with (ms := League.matches league team) (s := visited_add team st)
      as (new & -> & Hnew); try done
  end.
  - intros m s Hm Hv Hp Hskip.
    destruct (skip_match_false _ _ _ _ Hskip) as (_ & Hnv & _).
    destruct (IH (Match.get_other_team m team) (negb at_home) s)
      as (new & Hrun & Hnew).
    + by rewrite Hv.
    + rewrite Hv, Hp. by apply Inv_step.
    + lia.
    + rewrite Hp, length_app. simpl. lia.
    + exists new. by rewrite Hrun, Hv, Hp.
  - rewrite bind_Ok. unfold visited_remove. simpl.
    rewrite bool_decide_eq_true_2
      by (apply elem_of_union_l; by apply elem_of_singleton).
    exists new. split; [|done]. f_equal. f_equal.
    apply set_eq. intros x.
    rewrite elem_of_difference, elem_of_union, !elem_of_singleton.
    split; [tauto|]. intros Hx. split; [tauto|]. by intros ->.
Qed.

End Invariant.

(** ** The recursion budget does not matter *)

Lemma for_each_mono {A S : Type} (b1 b2 : A -> S -> Result S) (xs : list A) :
  (forall x s s', b1 x s = Ok s' -> b2 x s = Ok s') ->
  forall s s', for_each b1 xs s = Ok s' -> for_each b2 xs s = Ok s'.
Proof.
  intros Hb. induction xs as [|x xs IH]; intros s s' H; simpl in *; [done|].
  destruct (b1 x s) as [s1|e] eqn:E; [|done].
  rewrite (Hb _ _ _ E). by apply IH.
Qed.

Lemma dfs_S league away_team season depth fuel team at_home st :
  dfs league away_team season depth (S fuel) team at_home st
  = if Z.of_nat (length (path st)) >? depth then Ok st
    else if path_complete away_team (path st) then Ok (record_path st)
    else
      for_each
        (fun m s =>
           if skip_match season m (Match.get_other_team m team) at_home (visited s)
           then Ok s
           else dfs league away_team season depth fuel
                  (Match.get_other_team m team) (negb at_home) (path_append m s)
                  ≫= path_pop)
        (League.matches league team) (visited_add team st)
      ≫= visited_remove team.
Proof. reflexivity. Qed.

(** A call that returns with some budget returns the same state with any
    larger one: the budget only decides whether [OutOfFuel] is raised. *)
Lemma dfs_fuel_mono league away_team season depth fuel :
  forall team at_home st st',
    dfs league away_team season depth fuel team at_home st = Ok st' ->
    dfs league away_team season depth (S fuel) team at_home st = Ok st'.
Proof.
  induction fuel as [|fuel IH]; intros team at_home st st' H; [done|].
  rewrite dfs_S in H. rewrite dfs_S.
  destruct (Z.of_nat (length (path st)) >? depth); [done|].
  destruct (path_complete away_team (path st)); [done|].
  match type of H with
  | for_each ?b _ _ ≫= _ = _ =>
      destruct (for_each b (League.matches league team) (visited_add team st))
        as [s1|e] eqn:E; [|done]
  end.
  erewrite for_each_mono; [exact H | | exact E].
  intros m s s'. cbv beta. destruct (skip_match _ _ _ _ _); [done|].
  destruct (dfs league away_team season depth fuel _ _ _) as [s2|e] eqn:E2;
    [|done].
  by rewrite (IH _ _ _ _ E2).
Qed.

Lemma dfs_fuel_le league away_team season depth fuel fuel' team at_home st st' :
  (fuel <= fuel')%nat ->
  dfs league away_team season depth fuel team at_home st = Ok st' ->
  dfs league away_team season depth fuel' team at_home st = Ok st'.
Proof.
  induction 1 as [|fuel' _ IH]; [done|].
  intros H. by apply dfs_fuel_mono, IH.
Qed.

(** ** The search tree of [dfs] *)

Section Soundness.
Variable league : League.t.
Variables (home_team away_team : string) (season : string) (depth : Z).

Abbreviation complete := (path_complete away_team).
Abbreviation skipped := (skip_match season).
Abbreviation reach := (Reach league home_team away_team season depth).
Abbreviation accepted := (Accepted league home_team away_team season depth).

(** The enumerator returns normally, and every chain it returns was
    recorded by a call of the search tree. *)
Lemma find_all_paths_sound :
  exists ps,
    _find_all_paths league home_team away_team season depth = Ok ps
    /\ Forall accepted ps.
Proof.
  unfold _find_all_paths.
  destruct (dfs_sound league away_team season depth reach
              (Reach_step league home_team away_team season depth)
              (dfs_fuel depth) home_team true (mkDfs [] ∅ []))
    as (new & -> & Hnew); simpl.
  - apply not_elem_of_empty.
  - constructor.
  - unfold dfs_fuel. lia.
  - unfold dfs_fuel. lia.
  - by exists new.
Qed.

(** *** What holds along every branch of the search tree *)

Lemma get_other_team_step m team other at_home vis :
  other = Match.get_other_team m team ->
  skipped m other at_home vis = false ->
  if at_home
  then Match.home_team m = team /\ Match.away_team m = other
  else Match.home_team m = other /\ Match.home_team m <> team.
Proof.
  intros -> Hskip.
  destruct (skip_match_false _ _ _ _ _ Hskip) as (_ & _ & Haway & Hhome).
  unfold Match.get_other_team in *.
  destruct at_home; case_bool_decide; try done.
  - by destruct Hhome.
  - by destruct Haway.
Qed.

Lemma Reach_parity team at_home vis p :
  reach team at_home vis p -> at_home = Nat.even (length p).
Proof.
  induction 1 as [|team at_home vis p m _ IH _ _ _ _]; [done|].
  rewrite length_app, Nat.add_1_r, Nat.even_succ, <- Nat.negb_even, <- IH.
  done.
Qed.

Lemma Reach_season team at_home vis p :
  reach team at_home vis p -> Forall (fun m => Match.season m = season) p.
Proof.
  induction 1 as [|team at_home vis p m _ IH _ _ _ Hskip]; [constructor|].
  apply Forall_app. split; [done|]. constructor; [|constructor].
  by destruct (skip_match_false _ _ _ _ _ Hskip).
Qed.

Lemma Reach_in_league team at_home vis p :
  reach team at_home vis p ->
  Forall (fun m => exists t, m ∈ League.matches league t) p.
Proof.
  induction 1 as [|team at_home vis p m _ IH _ _ Hm _]; [constructor|].
  apply Forall_app. split; [done|]. constructor; [|constructor]. by exists team.
Qed.

(** [visited] holds exactly the teams the path has left behind, and the
    teams of the path, the current one included, are pairwise distinct. *)
Lemma Reach_teams team at_home vis p :
  reach team at_home vis p ->
  exists ts,
    chain_teams home_team p = ts ++ [team]
    /\ (forall x, x ∈ vis <-> x ∈ ts)
    /\ NoDup (ts ++ [team]).
Proof.
  induction 1 as [|team at_home vis p m _ IH _ _ _ Hskip].
  - exists []. simpl. split; [done|]. split.
    + intros x. rewrite elem_of_empty, elem_of_nil. tauto.
    + apply NoDup_singleton.
  - destruct IH as (ts & Hts & Hvis & Hnd).
    exists (ts ++ [team]). split; [by apply chain_teams_snoc|]. split.
    + intros x. rewrite elem_of_union, elem_of_singleton, elem_of_app,
        list_elem_of_singleton, Hvis. tauto.
    + destruct (skip_match_false _ _ _ _ _ Hskip) as (_ & Hnv & _).
      apply NoDup_app. split; [done|]. split; [|apply NoDup_singleton].
      intros x Hx Hx'. apply list_elem_of_singleton in Hx' as ->.
      apply Hnv. apply elem_of_app in Hx as [Hx|Hx].
      * apply elem_of_union_r. by apply Hvis.
      * apply elem_of_union_l. apply list_elem_of_singleton in Hx as ->.
        by apply elem_of_singleton.
Qed.

(** The two sides of every match of a path, under the representation
    invariant of [Team]: the team the search leaves is the home side of
    the matches at even positions (counted from 0) and the away side of
    those at odd positions; the team it moves to is the other side. *)
Lemma Reach_roles team at_home vis p :
  teams_wf league ->
  reach team at_home vis p ->
  forall k m, p !! k = Some m ->
    exists dep arr,
      chain_teams home_team p !! k = Some dep
      /\ chain_teams home_team p !! S k = Some arr
      /\ (if Nat.even k
          then Match.home_team m = dep /\ Match.away_team m = arr
          else Match.away_team m = dep /\ Match.home_team m = arr).
Proof.
  intros Hwf.
  induction 1 as [|team at_home vis p m0 Hreach IH _ _ Hm Hskip];
    intros k m Hk; [done|].
  destruct (Reach_teams _ _ _ _ Hreach) as (ts & Hts & _ & _).
  assert (length ts = length p) as Hlen.
  { pose proof (chain_teams_length home_team p) as Hl.
    rewrite Hts, length_app in Hl. simpl in Hl. lia. }
  rewrite (chain_teams_snoc _ _ m0 _ _ Hts).
  apply lookup_snoc_Some in Hk as [[Hlt Hk]|[-> <-]].
  - destruct (IH k m Hk) as (dep & arr & Hdep & Harr & Hrole).
    exists dep, arr. rewrite Hts in Hdep, Harr.
    split; [by apply lookup_app_l_Some|]. split; [by apply lookup_app_l_Some|done].
  - exists team, (Match.get_other_team m0 team).
    split; [|split].
    + apply lookup_app_l_Some. rewrite <- Hlen. apply list_lookup_middle. done.
    + replace (S (length p)) with (length (ts ++ [team]))
        by (rewrite length_app; simpl; lia).
      apply (list_lookup_middle _ []). done.
    + rewrite <- (Reach_parity _ _ _ _ Hreach).
      pose proof (get_other_team_step _ _ _ _ _ eq_refl Hskip) as Hstep.
      destruct at_home; [done|]. destruct Hstep as [Hh Hne].
      split; [|done]. by destruct (Hwf _ _ Hm).
Qed.

(** How the last match of a path relates to the current team: a team
    reached on a hop taken with [at_home] true is the away side of that
    hop; a team reached on a hop taken with [at_home] false is its home
    side, and the away side of that hop is not the destination. *)
Lemma Reach_last team at_home vis p :
  teams_wf league ->
  reach team at_home vis p ->
  match last p with
  | None => at_home = true
  | Some m =>
      if at_home
      then Match.home_team m = team /\ Match.away_team m <> away_team
      else Match.away_team m = team
  end.
Proof.
  intros Hwf.
  induction 1 as [|team at_home vis p m _ IH _ Hc Hm Hskip]; [done|].
  rewrite last_snoc.
  pose proof (get_other_team_step _ _ _ _ _ eq_refl Hskip) as Hstep.
  destruct at_home; simpl; [tauto|].
  destruct Hstep as [Hh Hne]. split; [done|].
  assert (Match.away_team m = team) as -> by (by destruct (Hwf _ _ Hm)).
  unfold path_complete in Hc. destruct (last p) as [m'|]; [|done].
  rewrite <- IH. by apply bool_decide_eq_false in Hc.
Qed.
End Soundness.

(** ** The chains the enumerator returns *)

Lemma returned_Accepted league home_team away_team season depth chain :
  returned league home_team away_team season depth chain ->
  Accepted league home_team away_team season depth chain.
Proof.
  intros (ps & Hps & Hin).
  destruct (find_all_paths_sound league home_team away_team season depth)
    as (ps' & Hps' & Hall).
  rewrite Hps in Hps'. injection Hps' as <-.
  by apply (proj1 (Forall_forall _ _) Hall).
Qed.

(** Whatever budget lets the search return, the chains are those of
    [_find_all_paths]. *)
Lemma find_all_paths_fuel_irrelevant
    league home_team away_team season depth fuel st :
  dfs league away_team season depth fuel home_team true (mkDfs [] ∅ []) = Ok st ->
  _find_all_paths league home_team away_team season depth = Ok (paths st).
Proof.
  intros H.
  destruct (find_all_paths_sound league home_team away_team season depth)
    as (ps & Hps & _).
  rewrite Hps. unfold _find_all_paths in Hps.
  destruct (dfs league away_team season depth (dfs_fuel depth) home_team true
              (mkDfs [] ∅ [])) as [st0|e] eqn:E; [|done].
  rewrite bind_Ok in Hps. injection Hps as <-.
  apply (dfs_fuel_le _ _ _ _ _ (fuel + dfs_fuel depth)) in H; [|lia].
  apply (dfs_fuel_le _ _ _ _ _ (fuel + dfs_fuel depth)) in E; [|lia].
  congruence.
Qed.

Lemma path_complete_last away_team p :
  path_complete away_team p = true ->
  exists m, last p = Some m /\ Match.away_team m = away_team.
Proof.
  unfold path_complete. destruct (last p) as [m|]; [|done].
  intros H. exists m. split; [done|]. by apply bool_decide_eq_true in H.
Qed.

(** ** The sample league satisfies the representation invariants *)

Lemma Sample_matches_cases (P : string -> Match.t -> Prop) :
  Forall (P "A") [Sample.mAB; Sample.mAC; Sample.mAE; Sample.mDA] ->
  Forall (P "B") [Sample.mAB; Sample.mBC; Sample.mBE; Sample.mBD] ->
  Forall (P "C") [Sample.mAC; Sample.mBC] ->
  Forall (P "D") [Sample.mBD; Sample.mDA] ->
  Forall (P "E") [Sample.mAE; Sample.mBE] ->
  forall t m, m ∈ League.matches Sample.league t -> P t m.
Proof.
  intros HA HB HC HD HE t m.
  unfold League.matches, Sample.league, League._teams.
  repeat (rewrite lookup_insert; case_decide;
          [subst t; intros Hm;
           eapply (proj1 (Forall_forall _ _)); [eassumption|exact Hm] |]).
  rewrite lookup_empty. by intros ?%elem_of_nil.
Qed.

Lemma Sample_teams_wf : teams_wf Sample.league.
Proof.
  unfold teams_wf.
  apply (Sample_matches_cases
           (fun t m => Match.home_team m = t \/ Match.away_team m = t));
    repeat match goal with |- Forall _ _ => constructor end;
    (by left) || (by right).
Qed.

Lemma Sample_details_wf : details_wf Sample.league.
Proof.
  unfold details_wf.
  apply (Sample_matches_cases
           (fun t m => is_Some (Match.details m !! Match.home_team m) /\
                       is_Some (Match.details m !! Match.away_team m)));
    repeat match goal with |- Forall _ _ => constructor end;
    vm_compute; eauto.
Qed.

Lemma Sample_goals_bounded : goals_bounded Sample.league.
Proof.
  intros t m side d Hm. revert t m Hm side d.
  apply (Sample_matches_cases
           (fun t m => forall side d,
              Match.details m !! side = Some d ->
              - 2 ^ 60 <= MatchDetails.full_time_goals d <= 2 ^ 60));
    repeat match goal with |- Forall _ _ => constructor end;
    intros side d Hd;
    cbv [Sample.mAB Sample.mAC Sample.mBC Sample.mAE Sample.mBE Sample.mBD
         Sample.mDA Sample.mk_match Match.details] in Hd;
    apply lookup_insert_Some in Hd as [[_ <-]|[_ Hd]];
    try (apply lookup_insert_Some in Hd as [[_ <-]|[_ Hd]]);
    try (by rewrite lookup_empty in Hd);
    by vm_compute.
Qed.

Lemma Sample_paths_A_D :
  _find_all_paths Sample.league "A" "D" Sample.s1011 4
  = Ok [[Sample.mAC; Sample.mBC; Sample.mBD];
        [Sample.mAE; Sample.mBE; Sample.mBD]].
Proof. vm_compute. reflexivity. Qed.

Lemma Sample_returned_A_D :
  returned Sample.league "A" "D" Sample.s1011 4
    [Sample.mAC; Sample.mBC; Sample.mBD].
Proof. eexists. split; [apply Sample_paths_A_D | left]. Qed.

Lemma Sample_paths_D_A :
  _find_all_paths Sample.league "D" "A" Sample.s1011 PREDICTION_DEPTH = Ok [].
Proof. vm_compute. reflexivity. Qed.

(** ** Properties of the enumerator *)

(** C3, as the specification states it, fails: with depth bound 0 the
    enumerator of the sample league returns normally, with the empty list;
    it raises nothing. *)
Lemma depth_zero_returns_normally :
  _find_all_paths Sample.league "A" "B" Sample.s1011 0 = Ok []
  /\ ~ (exists e, _find_all_paths Sample.league "A" "B" Sample.s1011 0 = Raise e).
Proof.
  assert (_find_all_paths Sample.league "A" "B" Sample.s1011 0 = Ok []) as H
    by (vm_compute; reflexivity).
  split; [done|]. intros [e He]. rewrite H in He. discriminate.
Qed.

(** C3, amended: for every depth bound [depth <= 0] and every source,
    destination and season, [_find_all_paths] returns normally and its
    result is the empty list; no error is raised. *)
Theorem find_all_paths_nonpositive_depth league home_team away_team season depth :
  depth <= 0 ->
  _find_all_paths league home_team away_team season depth = Ok [].
Proof.
  intros Hd.
  destruct (find_all_paths_sound league home_team away_team season depth)
    as (ps & -> & Hall).
  f_equal. destruct ps as [|p ps]; [done|]. exfalso.
  apply Forall_cons in Hall as [(team & at_home & vis & _ & Hlen & Hc) _].
  destruct p; [done|]. simpl in Hlen. lia.
Qed.

Lemma find_all_paths_nonpositive_depth_witness :
  -3 <= 0 /\ _find_all_paths Sample.league "A" "B" Sample.s1011 (-3) = Ok [].
Proof.
  split; [lia|]. apply (find_all_paths_nonpositive_depth Sample.league). lia.
Defined.

(** C4: in a league whose teams satisfy their representation invariant,
    every chain returned by [_find_all_paths] has an odd number of
    matches. *)
Theorem returned_chain_odd_length league home_team away_team season depth chain :
  teams_wf league ->
  returned league home_team away_team season depth chain ->
  Nat.odd (length chain) = true.
Proof.
  intros Hwf Hret.
  destruct (returned_Accepted _ _ _ _ _ _ Hret)
    as (team & at_home & vis & Hreach & _ & Hc).
  apply path_complete_last in Hc as (m & Hlast & Hm).
  pose proof (Reach_last _ _ _ _ _ _ _ _ _ Hwf Hreach) as Hl.
  rewrite Hlast in Hl.
  pose proof (Reach_parity _ _ _ _ _ _ _ _ _ Hreach) as Hpar.
  destruct at_home; [by destruct Hl|].
  by rewrite <- Nat.negb_even, <- Hpar.
Qed.

Lemma returned_chain_odd_length_witness :
  teams_wf Sample.league
  /\ returned Sample.league "A" "D" Sample.s1011 4
       [Sample.mAC; Sample.mBC; Sample.mBD]
  /\ Nat.odd (length [Sample.mAC; Sample.mBC; Sample.mBD]) = true.
Proof.
  split; [apply Sample_teams_wf|]. split; [apply Sample_returned_A_D|].
  apply (returned_chain_odd_length Sample.league "A" "D" Sample.s1011 4).
  - apply Sample_teams_wf.
  - apply Sample_returned_A_D.
Defined.

(** What a successful call of [predict] went through. *)
Lemma predict_Ok_inv home away season league q :
  predict home away season league = Ok q ->
  exists ps,
    _find_all_paths league home away season PREDICTION_DEPTH = Ok ps
    /\ (for_each add_path ps ([], []) ≫= fun acc => np_average acc.1 acc.2) = Ok q.
Proof.
  unfold predict, League.get_team.
  destruct (League._teams league !! home); [|done].
  destruct (League._teams league !! away); [|done].
  rewrite !bind_Ok.
  destruct (_find_all_paths league home away season PREDICTION_DEPTH) as [ps|e];
    [|done].
  rewrite bind_Ok. intros H. by exists ps.
Qed.

(** C5: every chain returned by [_find_all_paths] for the bound [depth] has
    at most [depth] matches; [predict] enumerates with the bound
    [PREDICTION_DEPTH = 4], so a prediction is computed from chains of at
    most 4 matches. *)
Theorem returned_chain_depth_bound league home_team away_team season depth chain :
  returned league home_team away_team season depth chain ->
  Z.of_nat (length chain) <= depth
  /\ PREDICTION_DEPTH = 4
  /\ (forall q,
        predict home_team away_team season league = Ok q ->
        exists ps,
          _find_all_paths league home_team away_team season 4 = Ok ps
          /\ (for_each add_path ps ([], []) ≫= fun acc => np_average acc.1 acc.2)
             = Ok q
          /\ Forall (fun c => (length c <= 4)%nat) ps).
Proof.
  assert (forall d c, returned league home_team away_team season d c ->
                      Z.of_nat (length c) <= d) as Hbound.
  { intros d c Hret.
    by destruct (returned_Accepted _ _ _ _ _ _ Hret) as (? & ? & ? & _ & ? & _). }
  intros Hret. split; [by apply Hbound|]. split; [done|].
  intros q Hq. apply predict_Ok_inv in Hq as (ps & Hps & Hq).
  exists ps. split; [done|]. split; [done|].
  apply Forall_forall. intros c Hc.
  assert (Z.of_nat (length c) <= 4); [|lia].
  apply Hbound. by exists ps.
Qed.

Lemma returned_chain_depth_bound_witness :
  returned Sample.league "A" "D" Sample.s1011 4
    [Sample.mAC; Sample.mBC; Sample.mBD]
  /\ Z.of_nat (length [Sample.mAC; Sample.mBC; Sample.mBD]) <= 4.
Proof.
  split; [apply Sample_returned_A_D|].
  apply (returned_chain_depth_bound Sample.league "A" "D" Sample.s1011 4).
  apply Sample_returned_A_D.
Defined.

(** C7: every chain returned by [_find_all_paths] is non-empty, and the
    away side of its last match is the destination team. *)
Theorem returned_chain_ends_at_destination
    league home_team away_team season depth chain :
  returned league home_team away_team season depth chain ->
  chain <> []
  /\ exists m, last chain = Some m /\ Match.away_team m = away_team.
Proof.
  intros Hret.
  destruct (returned_Accepted _ _ _ _ _ _ Hret) as (? & ? & ? & _ & _ & Hc).
  apply path_complete_last in Hc as (m & Hlast & Hm).
  split; [by intros ->|]. by exists m.
Qed.

Lemma returned_chain_ends_at_destination_witness :
  returned Sample.league "A" "D" Sample.s1011 4
    [Sample.mAC; Sample.mBC; Sample.mBD]
  /\ [Sample.mAC; Sample.mBC; Sample.mBD] <> []
  /\ exists m, last [Sample.mAC; Sample.mBC; Sample.mBD] = Some m
               /\ Match.away_team m = "D".
Proof.
  split; [apply Sample_returned_A_D|].
  apply (returned_chain_ends_at_destination Sample.league "A" "D" Sample.s1011 4).
  apply Sample_returned_A_D.
Defined.

(** C9: every match of every chain returned by [_find_all_paths] has
    exactly the requested season string as its [season]. *)
Theorem returned_chain_in_season league home_team away_team season depth chain :
  returned league home_team away_team season depth chain ->
  forall m, m ∈ chain -> Match.season m = season.
Proof.
  intros Hret.
  destruct (returned_Accepted _ _ _ _ _ _ Hret) as (? & ? & ? & Hreach & _ & _).
  apply Forall_forall. by eapply Reach_season.
Qed.

Lemma returned_chain_in_season_witness :
  returned Sample.league "A" "D" Sample.s1011 4
    [Sample.mAC; Sample.mBC; Sample.mBD]
  /\ Sample.mBC ∈ [Sample.mAC; Sample.mBC; Sample.mBD]
  /\ Match.season Sample.mBC = Sample.s1011.
Proof.
  assert (Sample.mBC ∈ [Sample.mAC; Sample.mBC; Sample.mBD]) as Hin
    by (right; left).
  split; [apply Sample_returned_A_D|]. split; [exact Hin|].
  apply (returned_chain_in_season Sample.league "A" "D" Sample.s1011 4
           [Sample.mAC; Sample.mBC; Sample.mBD]).
  - apply Sample_returned_A_D.
  - exact Hin.
Defined.

(** A call of [dfs] made on a team that is not in [visited] returns with
    [visited] and [path] as they were on entry. *)
Lemma dfs_restores league away_team season depth fuel team at_home st :
  team ∉ visited st ->
  (1 <= fuel)%nat ->
  depth + 2 <= Z.of_nat (length (path st)) + Z.of_nat fuel ->
  exists st',
    dfs league away_team season depth fuel team at_home st = Ok st'
    /\ visited st' = visited st /\ path st' = path st.
Proof.
  intros Hfresh Hf1 Hf.
  destruct (dfs_sound league away_team season depth (fun _ _ _ _ => True)
              (fun _ _ _ _ _ _ _ _ _ _ => I) fuel team at_home st)
    as (new & -> & _); try done.
  by eexists.
Qed.

Lemma Accepted_last_team league home_team away_team season depth chain :
  teams_wf league ->
  Accepted league home_team away_team season depth chain ->
  last (chain_teams home_team chain) = Some away_team.
Proof.
  intros Hwf (team & at_home & vis & Hreach & _ & Hc).
  apply path_complete_last in Hc as (m & Hlast & Hm).
  pose proof (Reach_last _ _ _ _ _ _ _ _ _ Hwf Hreach) as Hl.
  rewrite Hlast in Hl.
  destruct (Reach_teams _ _ _ _ _ _ _ _ _ Hreach) as (ts & -> & _ & _).
  rewrite last_snoc. destruct at_home; [by destruct Hl|]. congruence.
Qed.

(** C8: the teams a returned chain traverses, from the source to the last
    team reached, are pairwise distinct; in a league whose teams satisfy
    their representation invariant that last team is the destination and
    no match occurs twice in the chain. The set [visited] that enforces
    this is restored by every call of [dfs], together with [path]. *)
Theorem returned_chain_no_repeated_team
    league home_team away_team season depth chain :
  returned league home_team away_team season depth chain ->
  NoDup (chain_teams home_team chain)
  /\ (teams_wf league ->
      NoDup chain /\ last (chain_teams home_team chain) = Some away_team)
  /\ (forall fuel team at_home st,
        team ∉ visited st ->
        (1 <= fuel)%nat ->
        depth + 2 <= Z.of_nat (length (path st)) + Z.of_nat fuel ->
        exists st',
          dfs league away_team season depth fuel team at_home st = Ok st'
          /\ visited st' = visited st /\ path st' = path st).
Proof.
  intros Hret. pose proof (returned_Accepted _ _ _ _ _ _ Hret) as Hacc.
  destruct Hacc as (team & at_home & vis & Hreach & Hlen & Hc).
  assert (NoDup (chain_teams home_team chain)) as Hnd.
  { destruct (Reach_teams _ _ _ _ _ _ _ _ _ Hreach) as (ts & -> & _ & Hnd).
    exact Hnd. }
  split; [exact Hnd|]. split; [|intros; by apply dfs_restores].
  intros Hwf. split.
  - apply NoDup_alt. intros i j m Hi Hj.
    destruct (Reach_roles _ _ _ _ _ _ _ _ _ Hwf Hreach i m Hi)
      as (di & ai & Hdi & Hai & Hri).
    destruct (Reach_roles _ _ _ _ _ _ _ _ _ Hwf Hreach j m Hj)
      as (dj & aj & Hdj & Haj & Hrj).
    pose proof (proj1 (NoDup_alt _) Hnd) as Huniq.
    destruct (Nat.even i), (Nat.even j);
      destruct Hri as [<- <-], Hrj as [<- <-].
    + by apply (Huniq i j (Match.home_team m)).
    + pose proof (Huniq i (S j) _ Hdi Haj).
      pose proof (Huniq (S i) j _ Hai Hdj). lia.
    + pose proof (Huniq (S i) j _ Hai Hdj).
      pose proof (Huniq i (S j) _ Hdi Haj). lia.
    + by apply (Huniq i j (Match.away_team m)).
  - apply (Accepted_last_team league home_team away_team season depth); [done|].
    by exists team, at_home, vis.
Qed.

Lemma returned_chain_no_repeated_team_witness :
  returned Sample.league "A" "D" Sample.s1011 4
    [Sample.mAC; Sample.mBC; Sample.mBD]
  /\ NoDup (chain_teams "A" [Sample.mAC; Sample.mBC; Sample.mBD]).
Proof.
  split; [apply Sample_returned_A_D|].
  apply (returned_chain_no_repeated_team Sample.league "A" "D" Sample.s1011 4).
  apply Sample_returned_A_D.
Defined.

(** Two sibling chains of one enumeration that pass through the same
    intermediate team: B is reached through C in the first and through E in
    the second. *)
Example sibling_chains_share_a_team :
  exists c1 c2,
    _find_all_paths Sample.league "A" "D" Sample.s1011 4 = Ok [c1; c2]
    /\ chain_teams "A" c1 = ["A"; "C"; "B"; "D"]
    /\ chain_teams "A" c2 = ["A"; "E"; "B"; "D"].
Proof.
  eexists _, _. split; [apply Sample_paths_A_D|]. split; reflexivity.
Qed.

(** ** The prediction on an empty enumeration *)

(** With no chain, [predict] raises: [KeyError] when a team name is not a
    key of the league, the [ZeroDivisionError] of [numpy.average]
    otherwise. *)
Lemma predict_no_paths home away season league :
  _find_all_paths league home away season PREDICTION_DEPTH = Ok [] ->
  predict home away season league
  = if bool_decide (is_Some (League._teams league !! home)
                    /\ is_Some (League._teams league !! away))
    then Raise ZeroDivisionError else Raise KeyError.
Proof.
  intros Hps. unfold predict, League.get_team.
  destruct (League._teams league !! home) as [th|].
  - destruct (League._teams league !! away) as [ta|].
    + rewrite bool_decide_eq_true_2 by (split; eauto).
      rewrite !bind_Ok, Hps. reflexivity.
    + rewrite bool_decide_eq_false_2; [done|]. intros [_ [? ?]]. done.
  - rewrite bool_decide_eq_false_2; [done|]. intros [[? ?] _]. done.
Qed.

(** C10: in a league whose teams satisfy their representation invariant,
    the enumeration from a team to itself is empty for every season and
    depth, and [predict] for a team against itself returns no number. *)
Theorem find_all_paths_same_team league t season depth :
  teams_wf league ->
  _find_all_paths league t t season depth = Ok []
  /\ forall q, predict t t season league <> Ok q.
Proof.
  intros Hwf.
  assert (forall d, _find_all_paths league t t season d = Ok []) as Hempty.
  { intros d.
    destruct (find_all_paths_sound league t t season d) as (ps & -> & Hall).
    f_equal. destruct ps as [|p ps]; [done|]. exfalso.
    apply Forall_cons in Hall as [Hacc _].
    pose proof (Accepted_last_team _ _ _ _ _ _ Hwf Hacc) as Hlast.
    destruct Hacc as (team & at_home & vis & Hreach & _ & Hc).
    destruct (Reach_teams _ _ _ _ _ _ _ _ _ Hreach) as (ts & Hts & _ & Hnd).
    pose proof (chain_teams_head t p) as Hhead.
    rewrite Hts in Hhead, Hlast. rewrite last_snoc in Hlast.
    injection Hlast as ->.
    destruct ts as [|x ts]; simpl in Hhead.
    - pose proof (chain_teams_length t p) as Hl. rewrite Hts in Hl.
      destruct p; [done|]. simpl in Hl. lia.
    - injection Hhead as ->. simpl in Hnd. apply NoDup_cons in Hnd as [Hni _].
      apply Hni. apply elem_of_app. right. by apply list_elem_of_singleton. }
  split; [apply Hempty|].
  intros q. rewrite (predict_no_paths _ _ _ _ (Hempty PREDICTION_DEPTH)).
  by case_bool_decide.
Qed.

Lemma find_all_paths_same_team_witness :
  teams_wf Sample.league
  /\ _find_all_paths Sample.league "A" "A" Sample.s1011 4 = Ok [].
Proof.
  split; [apply Sample_teams_wf|].
  apply (find_all_paths_same_team Sample.league "A" Sample.s1011 4).
  apply Sample_teams_wf.
Defined.

(** C1: when the enumeration for ([home], [away], [season]) is empty,
    [predict] raises an exception and returns no number, in particular not
    0; for two teams of the league the exception is the
    [ZeroDivisionError] that [numpy.average] raises on weights that sum to
    zero. *)
Theorem predict_no_path_raises home away season league :
  _find_all_paths league home away season PREDICTION_DEPTH = Ok [] ->
  (exists e, predict home away season league = Raise e)
  /\ (forall q, predict home away season league <> Ok q)
  /\ (is_Some (League._teams league !! home) ->
      is_Some (League._teams league !! away) ->
      predict home away season league = Raise ZeroDivisionError).
Proof.
  intros Hps. rewrite (predict_no_paths _ _ _ _ Hps).
  case_bool_decide as Hin.
  - split; [by eexists|]. split; [done|]. done.
  - split; [by eexists|]. split; [done|]. intros ? ?. by destruct Hin.
Qed.

Lemma predict_no_path_raises_witness :
  _find_all_paths Sample.league "D" "A" Sample.s1011 PREDICTION_DEPTH = Ok []
  /\ predict "D" "A" Sample.s1011 Sample.league = Raise ZeroDivisionError.
Proof.
  split; [apply Sample_paths_D_A|].
  apply (predict_no_path_raises "D" "A" Sample.s1011 Sample.league).
  - apply Sample_paths_D_A.
  - vm_compute. eauto.
  - vm_compute. eauto.
Defined.

(** ** Role alternation *)

(** C6, as the specification states it, fails in its last part: in the
    returned chain A-C, B-C, B-D of the sample league (which satisfies the
    representation invariants) the first two matches share the team C, and
    C is the away side of both; no team of the two matches changes sides. *)
Lemma shared_team_keeps_its_role :
  teams_wf Sample.league
  /\ returned Sample.league "A" "D" Sample.s1011 4
       [Sample.mAC; Sample.mBC; Sample.mBD]
  /\ ~ (forall k m1 m2,
          [Sample.mAC; Sample.mBC; Sample.mBD] !! k = Some m1 ->
          [Sample.mAC; Sample.mBC; Sample.mBD] !! S k = Some m2 ->
          exists x, participant x m1 /\ participant x m2 /\ role_flips x m1 m2).
Proof.
  split; [apply Sample_teams_wf|]. split; [apply Sample_returned_A_D|].
  intros H.
  destruct (H 0%nat Sample.mAC Sample.mBC eq_refl eq_refl)
    as (x & _ & _ & [[H1 H2]|[H1 H2]]);
    simpl in H1, H2; congruence.
Qed.

(** C6, amended: in a league whose teams satisfy their representation
    invariant, for every returned chain the source is the home side of the
    first match; the team the search leaves on a match is its home side at
    the 1st, 3rd, ... match and its away side at the 2nd, 4th, ... match,
    the team it moves to being the other side; and two consecutive matches
    share exactly one team, the team reached by the earlier of the two,
    which is on the same side in both: the away side when the earlier match
    is the 1st, 3rd, ..., the home side when it is the 2nd, 4th, .... *)
Theorem returned_chain_roles league home_team away_team season depth chain :
  teams_wf league ->
  returned league home_team away_team season depth chain ->
  (exists m, head chain = Some m /\ Match.home_team m = home_team)
  /\ departing_roles_alternate home_team chain
  /\ (forall k m1 m2,
        chain !! k = Some m1 -> chain !! S k = Some m2 ->
        exists x,
          chain_teams home_team chain !! S k = Some x
          /\ (forall y, participant y m1 /\ participant y m2 <-> y = x)
          /\ (if Nat.even k
              then Match.away_team m1 = x /\ Match.away_team m2 = x
              else Match.home_team m1 = x /\ Match.home_team m2 = x)).
Proof.
  intros Hwf Hret.
  destruct (returned_Accepted _ _ _ _ _ _ Hret)
    as (team & at_home & vis & Hreach & _ & Hc).
  pose proof (Reach_roles _ _ _ _ _ _ _ _ _ Hwf Hreach) as Hroles.
  assert (NoDup (chain_teams home_team chain)) as Hnd.
  { destruct (Reach_teams _ _ _ _ _ _ _ _ _ Hreach) as (ts & -> & _ & Hnd).
    exact Hnd. }
  pose proof (proj1 (NoDup_alt _) Hnd) as Huniq.
  split; [|split; [exact Hroles|]].
  - apply path_complete_last in Hc as (ml & Hlast & _).
    destruct chain as [|m chain]; [done|].
    exists m. split; [done|].
    destruct (Hroles 0%nat m eq_refl) as (dep & arr & Hdep & _ & Hr & _).
    simpl in Hdep. congruence.
  - intros k m1 m2 Hk1 Hk2.
    destruct (Hroles k m1 Hk1) as (d1 & x & Hd1 & Hx & Hr1).
    destruct (Hroles (S k) m2 Hk2) as (d2 & a2 & Hd2 & Ha2 & Hr2).
    assert (d2 = x) as -> by congruence.
    assert (d1 <> a2) as Hne.
    { intros ->. pose proof (Huniq _ _ _ Hd1 Ha2). lia. }
    exists x. split; [done|].
    rewrite Nat.even_succ, <- Nat.negb_even in Hr2.
    unfold participant.
    destruct (Nat.even k); simpl in Hr2;
      destruct Hr1 as [Hh1 Ha1], Hr2 as [Hh2 Ha2'];
      (split; [|done]); intros y; split;
      try (intros ->; tauto); intros [[?|?] [?|?]]; congruence.
Qed.

Lemma returned_chain_roles_witness :
  teams_wf Sample.league
  /\ returned Sample.league "A" "D" Sample.s1011 4
       [Sample.mAC; Sample.mBC; Sample.mBD]
  /\ departing_roles_alternate "A" [Sample.mAC; Sample.mBC; Sample.mBD].
Proof.
  split; [apply Sample_teams_wf|]. split; [apply Sample_returned_A_D|].
  apply (returned_chain_roles Sample.league "A" "D" Sample.s1011 4).
  - apply Sample_teams_wf.
  - apply Sample_returned_A_D.
Defined.

(** ** Sums of positive floats *)

(** Shifting a mantissa right by fewer bits than it has leaves a positive
    mantissa. *)
Lemma shr_1_iter_pos p : forall m r s,
  Zpos p < Zpos (digits2_pos m) ->
  exists m' r' s',
    SpecFloat.iter_pos shr_1 p (Build_shr_record (Zpos m) r s)
    = Build_shr_record (Zpos m') r' s'
    /\ Zpos (digits2_pos m') = Zpos (digits2_pos m) - Zpos p.
Proof.
  assert (forall m r s, 1 < Zpos (digits2_pos m) ->
            exists m' r' s',
              shr_1 (Build_shr_record (Zpos m) r s)
              = Build_shr_record (Zpos m') r' s'
              /\ Zpos (digits2_pos m') = Zpos (digits2_pos m) - 1) as Hone.
  { intros m r s Hd. destruct m as [q|q|]; simpl in *; [| |lia];
      eexists _, _, _; (split; [reflexivity|lia]). }
  induction p as [p IH|p IH|]; intros m r s Hd; cbn [SpecFloat.iter_pos].
  - destruct (Hone m r s) as (m1 & r1 & s1 & -> & Hd1); [lia|].
    destruct (IH m1 r1 s1) as (m2 & r2 & s2 & -> & Hd2); [lia|].
    destruct (IH m2 r2 s2) as (m3 & r3 & s3 & -> & Hd3); [lia|].
    eexists _, _, _. split; [reflexivity|lia].
  - destruct (IH m r s) as (m2 & r2 & s2 & -> & Hd2); [lia|].
    destruct (IH m2 r2 s2) as (m3 & r3 & s3 & -> & Hd3); [lia|].
    eexists _, _, _. split; [reflexivity|lia].
  - destruct (Hone m r s) as (m1 & r1 & s1 & -> & Hd1); [lia|].
    eexists _, _, _. split; [reflexivity|lia].
Qed.

Lemma shr_fexp_pos m e l :
  emin mant_dig max_exp <= e ->
  exists m' r' s' e',
    shr_fexp mant_dig max_exp (Zpos m) e l
    = (Build_shr_record (Zpos m') r' s', e')
    /\ emin mant_dig max_exp <= e'.
Proof.
  intros He. unfold shr_fexp, shr. cbn [Zdigits2].
  assert (exists r s,
            shr_record_of_loc (Zpos m) l = Build_shr_record (Zpos m) r s)
    as (r & s & ->) by (destruct l as [|[]]; by eexists _, _).
  destruct (fexp mant_dig max_exp (Zpos (digits2_pos m) + e) - e)
    as [|p|p] eqn:Hn;
    [by eexists _, _, _, _| |by eexists _, _, _, _].
  destruct (shr_1_iter_pos p m r s) as (m' & r' & s' & -> & _).
  { unfold fexp, emin, mant_dig, max_exp in *. lia. }
  eexists _, _, _, _. split; [reflexivity|]. lia.
Qed.

(** Rounding a positive number whose exponent is not below the least one
    gives a positive float or infinity, never zero. *)
Lemma binary_round_aux_pos m e l :
  emin mant_dig max_exp <= e ->
  float_positive (binary_round_aux mant_dig max_exp false (Zpos m) e l) = true.
Proof.
  intros He. unfold binary_round_aux.
  destruct (shr_fexp_pos m e l He) as (m1 & r1 & s1 & e1 & -> & He1).
  cbn [shr_m].
  assert (exists m2, round_nearest_even (Zpos m1)
                       (loc_of_shr_record (Build_shr_record (Zpos m1) r1 s1))
                     = Zpos m2) as [m2 ->].
  { destruct r1, s1; cbn [loc_of_shr_record round_nearest_even];
      try destruct (Z.even (Z.pos m1)); by eexists. }
  destruct (shr_fexp_pos m2 e1 loc_Exact He1) as (m3 & r3 & s3 & e3 & -> & He3).
  cbn [shr_m]. destruct (e3 <=? max_exp - mant_dig); [|done].
  cbn [float_positive]. by apply Z.leb_le.
Qed.

Lemma binary_round_pos m e :
  emin mant_dig max_exp <= e ->
  float_positive (binary_round mant_dig max_exp false m e) = true.
Proof.
  intros He. unfold binary_round.
  destruct (shl_align m e _) as [mz ez] eqn:Hs.
  apply binary_round_aux_pos.
  unfold shl_align in Hs.
  destruct (fexp mant_dig max_exp (Zpos (digits2_pos m) + e) - e) eqn:Hd;
    injection Hs as <- <-; try done.
  unfold fexp. lia.
Qed.

Lemma float_add_pos x y :
  float_positive x = true -> float_positive y = true ->
  float_positive (float_add x y) = true.
Proof.
  destruct x as [[]|[]| |[] mx ex]; try done;
    destruct y as [[]|[]| |[] my ey]; try done.
  intros Hx%Z.leb_le Hy%Z.leb_le. unfold float_add, SFadd.
  cbn [cond_Zopp Z.add binary_normalize].
  apply binary_round_pos. lia.
Qed.

Lemma float_positive_nonzero x :
  float_positive x = true -> float_is_zero x = false.
Proof. by destruct x as [[]|[]| |[] m e]. Qed.

Lemma float_add_zero_pos x :
  float_positive x = true -> float_add (S754_zero false) x = x.
Proof. by destruct x as [[]|[]| |[] m e]. Qed.

Lemma sum_from_cons init x xs :
  sum_from init (x :: xs) = sum_from (float_add init x) xs.
Proof. reflexivity. Qed.

Lemma sum_from_pos xs : forall init,
  float_positive init = true -> positive_floats xs ->
  float_positive (sum_from init xs) = true.
Proof.
  induction xs as [|x xs IH]; intros init Hi Hxs; [done|].
  apply Forall_cons in Hxs as [Hx Hxs]. rewrite sum_from_cons.
  apply IH; [|done]. by apply float_add_pos.
Qed.

Lemma sum_from_zero_pos xs :
  xs <> [] -> positive_floats xs ->
  float_positive (sum_from (S754_zero false) xs) = true.
Proof.
  destruct xs as [|x xs]; [done|]. intros _ [Hx Hxs]%Forall_cons.
  rewrite sum_from_cons, float_add_zero_pos by done. by apply sum_from_pos.
Qed.

Lemma zip_with_pos r : forall xs,
  positive_floats r -> positive_floats xs ->
  positive_floats (zip_with float_add r xs).
Proof.
  induction r as [|y r IH]; intros [|x xs] Hr Hxs; cbn; try done.
  apply Forall_cons in Hr as [Hy Hr]. apply Forall_cons in Hxs as [Hx Hxs].
  constructor; [by apply float_add_pos | by apply IH].
Qed.

Lemma accumulate_pos k : forall r xs,
  length r = 8%nat -> (8 * k <= length xs)%nat ->
  positive_floats r -> positive_floats xs ->
  length (accumulate k r xs) = 8%nat /\ positive_floats (accumulate k r xs).
Proof.
  induction k as [|k IH]; intros r xs Hl Hk Hr Hxs; cbn [accumulate]; [done|].
  apply IH.
  - rewrite length_zip_with, length_take. lia.
  - rewrite length_drop. lia.
  - apply zip_with_pos; [done|]. by apply Forall_take.
  - by apply Forall_drop.
Qed.

Lemma combine8_pos r :
  length r = 8%nat -> positive_floats r -> float_positive (combine8 r) = true.
Proof.
  intros Hl Hr.
  do 9 (destruct r as [|? r]; [try done|]); [|done].
  repeat match goal with
         | H : positive_floats (_ :: _) |- _ => apply Forall_cons in H as [? H]
         end.
  cbn [combine8]. repeat apply float_add_pos; done.
Qed.

Lemma sum_unrolled_pos xs :
  (8 <= length xs)%nat -> positive_floats xs ->
  float_positive (sum_unrolled xs) = true.
Proof.
  intros Hn Hxs. unfold sum_unrolled.
  pose proof (Nat.div_mod_eq (length xs) 8) as Hdiv.
  pose proof (Nat.mod_upper_bound (length xs) 8) as Hmod.
  destruct (accumulate_pos (length xs / 8 - 1) (take 8 xs) (drop 8 xs))
    as [Hl Hr].
  - rewrite length_take. lia.
  - rewrite length_drop. lia.
  - by apply Forall_take.
  - by apply Forall_drop.
  - apply sum_from_pos; [by apply combine8_pos | by apply Forall_drop].
Qed.

Lemma pairwise_sum_rec_pos fuel : forall xs,
  (length xs <= fuel)%nat -> xs <> [] -> positive_floats xs ->
  float_positive (pairwise_sum_rec fuel xs) = true.
Proof.
  induction fuel as [|fuel IH]; intros xs Hf Hne Hxs.
  - destruct xs; [done|]. cbn in Hf. lia.
  - cbn [pairwise_sum_rec].
    destruct (Nat.ltb_spec (length xs) 8) as [H8|H8];
      [by apply sum_from_zero_pos|].
    destruct (Nat.leb_spec (length xs) 128) as [H128|H128];
      [by apply sum_unrolled_pos|].
    pose proof (Nat.div_mod_eq (length xs) 2) as Hdiv.
    pose proof (Nat.mod_upper_bound (length xs) 2) as Hmod.
    pose proof (Nat.mod_upper_bound (length xs / 2) 8) as Hmod8.
    apply float_add_pos; apply IH.
    + rewrite length_take. lia.
    + intros Hnil. apply (f_equal length) in Hnil.
      rewrite length_take in Hnil. cbn [length] in Hnil. lia.
    + by apply Forall_take.
    + rewrite length_drop. lia.
    + intros Hnil. apply (f_equal length) in Hnil.
      rewrite length_drop in Hnil. cbn [length] in Hnil. lia.
    + by apply Forall_drop.
Qed.

(** The weights of [numpy.average] never sum to zero when there is one and
    all are positive. *)
Lemma np_sum_pos xs :
  xs <> [] -> positive_floats xs -> float_positive (np_sum xs) = true.
Proof.
  intros Hne Hxs. unfold np_sum.
  assert (float_positive (pairwise_sum xs) = true) as Hp
    by (by apply pairwise_sum_rec_pos).
  by rewrite float_add_zero_pos.
Qed.

Lemma np_sum_objects_pos xs :
  xs <> [] -> positive_floats xs -> float_positive (np_sum_objects xs) = true.
Proof.
  destruct xs as [|x xs]; [done|]. intros _ [Hx Hxs]%Forall_cons.
  by apply sum_from_pos.
Qed.

(** The budget of [pairwise_sum_rec] is never used up: any budget of at
    least the length of the list gives the same sum. *)
Lemma pairwise_sum_rec_fuel fuel : forall fuel' xs,
  (length xs <= fuel)%nat -> (length xs <= fuel')%nat ->
  pairwise_sum_rec fuel xs = pairwise_sum_rec fuel' xs.
Proof.
  induction fuel as [|fuel IH]; intros fuel' xs Hf Hf'.
  - destruct xs; [|cbn in Hf; lia]. by destruct fuel'.
  - destruct fuel' as [|fuel'].
    { destruct xs; [done|cbn in Hf'; lia]. }
    cbn [pairwise_sum_rec].
    destruct (Nat.ltb_spec (length xs) 8) as [H8|H8]; [done|].
    destruct (Nat.leb_spec (length xs) 128) as [H128|H128]; [done|].
    pose proof (Nat.div_mod_eq (length xs) 2) as Hdiv.
    pose proof (Nat.mod_upper_bound (length xs) 2) as Hmod.
    pose proof (Nat.mod_upper_bound (length xs / 2) 8) as Hmod8.
    f_equal; apply IH; rewrite ?length_take, ?length_drop; lia.
Qed.

(** ** The weighted mean *)

Lemma inner_loop_signal chain : forall total_diff,
  Forall has_details chain ->
  for_each add_home_goal_diff chain total_diff
  = Ok (total_diff + spec_signal chain).
Proof.
  induction chain as [|m chain IH]; intros total_diff Hall; simpl.
  - f_equal. lia.
  - apply Forall_cons in Hall as [[[dh Hh] [da Ha]] Hall].
    unfold add_home_goal_diff, dict_get, full_time_goals_of.
    rewrite Hh, Ha, !bind_Ok, IH by done. f_equal. lia.
Qed.

(** The weights [predict] computes: [1 / len(path)] for a path of 1 to 4
    matches raises nothing and is a positive float. *)
Lemma true_div_weight n :
  1 <= n <= 4 ->
  true_div 1 n = Ok (nearest_quotient 1 n)
  /\ float_positive (nearest_quotient 1 n) = true.
Proof.
  intros Hn.
  assert (n = 1 \/ n = 2 \/ n = 3 \/ n = 4) as [->|[->|[->| ->]]] by lia;
    by vm_compute.
Qed.

Lemma add_path_signal chain acc :
  chain <> [] ->
  (length chain <= 4)%nat ->
  Forall has_details chain ->
  add_path chain acc
  = Ok (acc.1 ++ [spec_signal chain], acc.2 ++ [float_weight chain]).
Proof.
  intros Hne Hlen Hall. unfold add_path.
  destruct (true_div_weight (Z.of_nat (length chain))) as [-> _].
  { destruct chain; [done|]. cbn [length] in *. lia. }
  rewrite bind_Ok, inner_loop_signal by done. reflexivity.
Qed.

Lemma outer_loop_signals league chains : forall acc,
  Forall (usable_chain league) chains ->
  for_each add_path chains acc
  = Ok (acc.1 ++ map spec_signal chains, acc.2 ++ map float_weight chains).
Proof.
  induction chains as [|c chains IH]; intros [a w] Hall; simpl.
  - by rewrite !app_nil_r.
  - apply Forall_cons in Hall as [(Hne & Hlen & Hc & _) Hall].
    rewrite add_path_signal, IH by done. simpl.
    by rewrite <- !app_assoc.
Qed.

Lemma float_weights_pos league chains :
  Forall (usable_chain league) chains ->
  positive_floats (map float_weight chains).
Proof.
  intros Hall. apply Forall_fmap. eapply Forall_impl; [exact Hall|].
  intros c (Hne & Hlen & _). cbn. unfold float_weight.
  apply true_div_weight. destruct c; [done|]. cbn [length] in *. lia.
Qed.

Lemma zip_with_map {A B C D : Type} (f : B -> C -> D) (g : A -> B) (h : A -> C)
    (l : list A) :
  zip_with f (map g l) (map h l) = map (fun x => f (g x) (h x)) l.
Proof. induction l as [|x l IH]; [done|]. cbn. by rewrite IH. Qed.

(** [numpy.average] on signals that are machine integers. *)
Lemma np_average_float_mean league chains :
  chains <> [] ->
  Forall (usable_chain league) chains ->
  Forall (fun c => fits_machine_int (spec_signal c) = true) chains ->
  np_average (map spec_signal chains) (map float_weight chains)
  = Ok (float_weighted_mean chains).
Proof.
  intros Hne Hall Hfit. unfold np_average.
  rewrite !length_map, Nat.eqb_refl. cbn [negb].
  assert (forallb fits_machine_int (map spec_signal chains) = true) as ->.
  { clear -Hfit. induction Hfit as [|c cs Hc _ IH]; [done|].
    cbn [map forallb]. by rewrite Hc, IH. }
  rewrite float_positive_nonzero.
  - unfold float_weighted_mean. do 3 f_equal.
    by rewrite map_map, zip_with_map.
  - apply np_sum_pos; [by destruct chains|by eapply float_weights_pos].
Qed.

(** The only exception [numpy.average] raises on positive weights, one for
    each signal, is the [OverflowError] of a signal too large for a
    float. *)
Lemma multiply_objects_raises a : forall weights e,
  multiply_objects a weights = Raise e ->
  e = OverflowError
  /\ exists x, x ∈ a /\ int_to_float x = Raise OverflowError.
Proof.
  induction a as [|x a IH]; intros [|w weights] e H; try done.
  cbn [multiply_objects] in H.
  destruct (int_to_float x) as [fx|e'] eqn:Hx.
  - rewrite bind_Ok in H.
    destruct (multiply_objects a weights) as [products|e''] eqn:Hp; [done|].
    injection H as <-. destruct (IH _ _ Hp) as (-> & y & Hy & Hov).
    split; [done|]. exists y. split; [by right|done].
  - injection H as <-.
    assert (e' = OverflowError) as ->.
    { unfold int_to_float in Hx. destruct (float_of_int x); congruence. }
    split; [done|]. exists x. split; [by left|done].
Qed.

Lemma np_average_raises a weights e :
  length a = length weights ->
  weights <> [] ->
  positive_floats weights ->
  np_average a weights = Raise e ->
  e = OverflowError
  /\ exists x, x ∈ a /\ int_to_float x = Raise OverflowError.
Proof.
  intros Hlen Hne Hpos. unfold np_average.
  rewrite Hlen, Nat.eqb_refl. cbn [negb].
  destruct (forallb fits_machine_int a).
  - by rewrite float_positive_nonzero by (by apply np_sum_pos).
  - rewrite float_positive_nonzero by (by apply np_sum_objects_pos).
    destruct (multiply_objects a weights) as [products|e'] eqn:Hp; [done|].
    intros [= <-]. by eapply multiply_objects_raises.
Qed.

(** The chains the enumeration with depth 4 hands to [predict]. *)
Lemma returned_usable home away season league chains :
  details_wf league ->
  _find_all_paths league home away season PREDICTION_DEPTH = Ok chains ->
  Forall (usable_chain league) chains.
Proof.
  intros Hwf Hps. apply Forall_forall. intros c Hc.
  assert (returned league home away season PREDICTION_DEPTH c) as Hret
    by (by exists chains).
  destruct (returned_Accepted _ _ _ _ _ _ Hret)
    as (team & at_home & vis & Hreach & Hlen & Hcomp).
  pose proof (Reach_in_league _ _ _ _ _ _ _ _ _ Hreach) as Hin.
  split; [|split; [|split; [|done]]].
  - apply path_complete_last in Hcomp as (m & Hlast & _). by intros ->.
  - unfold PREDICTION_DEPTH in Hlen. lia.
  - eapply Forall_impl; [exact Hin|]. intros m [t Hm]. by apply (Hwf t).
Qed.

(** What [predict] does between the enumeration and [numpy.average]. *)
Lemma predict_average home away season league chains :
  details_wf league ->
  is_Some (League._teams league !! home) ->
  is_Some (League._teams league !! away) ->
  _find_all_paths league home away season PREDICTION_DEPTH = Ok chains ->
  predict home away season league
  = np_average (map spec_signal chains) (map float_weight chains).
Proof.
  intros Hwf [th Hh] [ta Ha] Hps.
  unfold predict, League.get_team. rewrite Hh, Ha, !bind_Ok, Hps, bind_Ok.
  rewrite (outer_loop_signals league) by (by eapply returned_usable).
  by rewrite bind_Ok.
Qed.

Lemma predict_float_mean home away season league chains :
  details_wf league ->
  is_Some (League._teams league !! home) ->
  is_Some (League._teams league !! away) ->
  _find_all_paths league home away season PREDICTION_DEPTH = Ok chains ->
  chains <> [] ->
  Forall (fun c => fits_machine_int (spec_signal c) = true) chains ->
  predict home away season league = Ok (float_weighted_mean chains).
Proof.
  intros Hwf Hh Ha Hps Hne Hfit.
  rewrite (predict_average _ _ _ _ chains) by done.
  apply (np_average_float_mean league); [done| |done].
  by eapply returned_usable.
Qed.

(** C2, as it is worded, does not hold: the league [OneChain.league 7] has
    one chain from A to D, of three matches and of signal 7; the exact
    weighted mean is 7, and [predict] returns the float
    [7881299347898367 * 2 ^ -50], which is [7 - 2 ^ -50] (printed
    6.999999999999999): the weight 1/3 is rounded, and so are the product
    and the quotient. *)
Lemma predict_not_exact_mean :
  let chains := [[OneChain.mAC 7; OneChain.mBC; OneChain.mBD]] in
  _find_all_paths (OneChain.league 7) "A" "D" Sample.s1011 PREDICTION_DEPTH
  = Ok chains
  /\ (spec_weighted_mean chains == 7)%Q
  /\ exists q r,
       predict "A" "D" Sample.s1011 (OneChain.league 7) = Ok q
       /\ float_value q = Some r
       /\ (r == 7 - (1 # 2 ^ 50))%Q
       /\ ~ (r == spec_weighted_mean chains)%Q.
Proof.
  cbv zeta. split; [by vm_compute|]. split; [by vm_compute|].
  eexists _, _. split; [by vm_compute|]. split; [by vm_compute|].
  split; by vm_compute.
Qed.

(** C2, amended: in a league whose matches satisfy their representation
    invariant, for two teams of the league and a non-empty enumeration
    [chains] whose signals are machine integers, [predict] returns the
    weighted mean of the chains' signals evaluated in binary64 arithmetic:
    the weight of a chain is the float nearest to 1 over its number of
    matches, its signal is the sum over its matches of the home side's
    full-time goals minus the away side's, converted to the nearest float,
    and the result is the rounded quotient of numpy's sum of the rounded
    products weight times signal by numpy's sum of the weights. *)
Theorem predict_float_weighted_mean home away season league chains :
  details_wf league ->
  is_Some (League._teams league !! home) ->
  is_Some (League._teams league !! away) ->
  _find_all_paths league home away season PREDICTION_DEPTH = Ok chains ->
  chains <> [] ->
  Forall (fun c => fits_machine_int (spec_signal c) = true) chains ->
  predict home away season league = Ok (float_weighted_mean chains).
Proof.
  intros Hwf Hh Ha Hps Hne Hfit.
  rewrite (predict_average _ _ _ _ chains) by done.
  apply (np_average_float_mean league); [done| |done].
  by eapply returned_usable.
Qed.

Lemma predict_float_weighted_mean_witness :
  predict "A" "D" Sample.s1011 Sample.league
  = Ok (float_weighted_mean [[Sample.mAC; Sample.mBC; Sample.mBD];
                             [Sample.mAE; Sample.mBE; Sample.mBD]]).
Proof.
  apply (predict_float_weighted_mean "A" "D" Sample.s1011 Sample.league).
  - apply Sample_details_wf.
  - vm_compute. eauto.
  - vm_compute. eauto.
  - apply Sample_paths_A_D.
  - discriminate.
  - repeat constructor.
Defined.

(** The scenario of the specification: one direct match A 3 - 1 B gives one
    chain of length 1, and the prediction for A against B is 2.0. *)
Example predict_direct_match :
  _find_all_paths Sample.league "A" "B" Sample.s1011 1 = Ok [[Sample.mAB]]
  /\ predict "A" "B" Sample.s1011 Sample.league = Ok (float_of_int 2).
Proof. split; vm_compute; reflexivity. Qed.

(** Two chains of length 3 with signals 0 and +1: the prediction is 0.5,
    with no rounding error. *)
Example predict_two_chains :
  exists q r,
    predict "A" "D" Sample.s1011 Sample.league = Ok q
    /\ float_value q = Some r
    /\ (r == 1 # 2)%Q.
Proof. eexists _, _. repeat split; vm_compute; reflexivity. Qed.

(** A direct match of signal 1 and a chain of three matches of signal 4:
    the exact mean is [(1 + 4/3) / (1 + 1/3) = 7/4], the prediction is
    [7/4 - 2 ^ -52] (printed 1.7499999999999998). *)
Example predict_rounds :
  let chains := [[OneChain.mAD]; [OneChain.mAC 4; OneChain.mBC; OneChain.mBD]] in
  _find_all_paths (OneChain.league_with_direct 4) "A" "D" Sample.s1011
    PREDICTION_DEPTH = Ok chains
  /\ (spec_weighted_mean chains == 7 # 4)%Q
  /\ exists q r,
       predict "A" "D" Sample.s1011 (OneChain.league_with_direct 4) = Ok q
       /\ float_value q = Some r
       /\ (r == (7 # 4) - (1 # 2 ^ 52))%Q.
Proof.
  cbv zeta. split; [by vm_compute|]. split; [by vm_compute|].
  eexists _, _. split; [by vm_compute|]. split; by vm_compute.
Qed.

(** A goal count beyond the floats: the array of signals holds Python
    ints, and the product of the signal by its weight raises. *)
Example predict_overflow :
  predict "A" "D" Sample.s1011 (OneChain.league (2 ^ 1024))
  = Raise OverflowError.
Proof. by vm_compute. Qed.

(** * Further properties *)

(** ** models.py *)

(** [get_other_team] on a participant returns a participant, and applied
    to that one it gives the first back; with two distinct sides the two
    differ. *)
Theorem get_other_team_involutive (m : Match.t) (t : string) :
  participant t m ->
  participant (Match.get_other_team m t) m
  /\ Match.get_other_team m (Match.get_other_team m t) = t
  /\ (Match.home_team m <> Match.away_team m -> Match.get_other_team m t <> t).
Proof.
  unfold participant, Match.get_other_team. intros [Hp|Hp];
    repeat case_bool_decide; split_and!; intros; try tauto; congruence.
Qed.

Lemma get_other_team_involutive_witness :
  participant "C" Sample.mBC
  /\ Match.get_other_team Sample.mBC (Match.get_other_team Sample.mBC "C") = "C".
Proof.
  assert (participant "C" Sample.mBC) as H by (by right).
  split; [exact H|]. apply (get_other_team_involutive Sample.mBC "C" H).
Defined.

Lemma team_in_league_true self name :
  League.team_in_league self name = true
  <-> is_Some (League._teams self !! name).
Proof. unfold League.team_in_league. apply bool_decide_eq_true. Qed.

(** Case analysis on whether [n] is the key [name] just written. *)
Ltac by_name n name :=
  destruct (decide (n = name)) as [->|?];
  [ rewrite ?lookup_insert_eq, ?(bool_decide_eq_true_2 (name = name)) by done
  | rewrite ?lookup_insert_ne, ?(bool_decide_eq_false_2 (n = name)) by done ].

Lemma team_in_league_insert ts name c n :
  League.team_in_league (League.mk (<[name := c]> ts)) n
  = League.team_in_league (League.mk ts) n || bool_decide (n = name).
Proof.
  unfold League.team_in_league; simpl.
  destruct (decide (n = name)) as [->|Hne].
  - rewrite lookup_insert_eq, (bool_decide_eq_true_2 (name = name)) by done.
    rewrite orb_true_r. apply bool_decide_eq_true_2. by eexists.
  - rewrite lookup_insert_ne, (bool_decide_eq_false_2 (n = name)) by done.
    by rewrite orb_false_r.
Qed.

Lemma lookup_add_team (self : League.t) (name n : string) :
  League.get_team (add_team self name).1 name = Ok (add_team self name).2
  /\ League.team_in_league (add_team self name).1 n
     = League.team_in_league self n || bool_decide (n = name)
  /\ League.matches (add_team self name).1 n
     = (if bool_decide (n = name) then [] else League.matches self n)
  /\ team_seasons (add_team self name).1 n
     = (if bool_decide (n = name) then ∅ else team_seasons self n).
Proof.
  destruct self as [ts]. split_and!.
  - unfold League.get_team, add_team; simpl. by rewrite lookup_insert_eq.
  - apply team_in_league_insert.
  - unfold League.matches, add_team; simpl. by by_name n name.
  - unfold team_seasons, add_team; simpl. by by_name n name.
Qed.

(** [add_team] followed by the lookups: the name is in the league with an
    empty match list and no season, also when the name was there before
    with matches, and every other team is as it was. *)
Theorem add_team_lookup (self : League.t) (name n : string) :
  League.get_team (add_team self name).1 name = Ok (add_team self name).2
  /\ League.team_in_league (add_team self name).1 n
     = League.team_in_league self n || bool_decide (n = name)
  /\ League.matches (add_team self name).1 n
     = (if bool_decide (n = name) then [] else League.matches self n)
  /\ team_seasons (add_team self name).1 n
     = (if bool_decide (n = name) then ∅ else team_seasons self n).
Proof.
  destruct self as [ts]. split_and!.
  - unfold League.get_team, add_team; simpl. by rewrite lookup_insert_eq.
  - apply team_in_league_insert.
  - unfold League.matches, add_team; simpl. by by_name n name.
  - unfold team_seasons, add_team; simpl. by by_name n name.
Qed.

Lemma add_season_to_team_cells (self : League.t) (team season : string) :
  match add_season_to_team self team season with
  | Raise e => e = KeyError /\ League.team_in_league self team = false
  | Ok self' =>
      League.team_in_league self team = true
      /\ forall n,
          team_seasons self' n
          = (if bool_decide (n = team) then {[season]} ∪ team_seasons self n
             else team_seasons self n)
          /\ League.matches self' n = League.matches self n
          /\ League.team_in_league self' n = League.team_in_league self n
  end.
Proof.
  destruct self as [ts].
  unfold add_season_to_team, dict_get; simpl.
  destruct (ts !! team) as [c|] eqn:Hc; rewrite ?bind_Ok; simpl.
  - split; [apply team_in_league_true; by eexists|]. intros n. split_and!.
    + unfold team_seasons; simpl. by_name n team; [by rewrite Hc|done].
    + unfold League.matches; simpl. by_name n team; [by rewrite Hc|done].
    + rewrite team_in_league_insert. by_name n team.
      * rewrite orb_true_r. symmetry. apply team_in_league_true. by eexists.
      * by rewrite orb_false_r.
  - split; [done|]. apply bool_decide_eq_false_2. simpl. rewrite Hc.
    by intros [? ?].
Qed.

(** [add_season_to_team] raises [KeyError] exactly on a name that is not in
    the league; otherwise it adds the season to that team's seasons and
    changes nothing else. *)
Theorem add_season_to_team_spec (self : League.t) (team season : string) :
  match add_season_to_team self team season with
  | Raise e => e = KeyError /\ League.team_in_league self team = false
  | Ok self' =>
      League.team_in_league self team = true
      /\ forall n,
          team_seasons self' n
          = (if bool_decide (n = team) then {[season]} ∪ team_seasons self n
             else team_seasons self n)
          /\ League.matches self' n = League.matches self n
          /\ League.team_in_league self' n = League.team_in_league self n
  end.
Proof.
  destruct self as [ts].
  unfold add_season_to_team, dict_get; simpl.
  destruct (ts !! team) as [c|] eqn:Hc; rewrite ?bind_Ok; simpl.
  - split; [apply team_in_league_true; by eexists|]. intros n. split_and!.
    + unfold team_seasons; simpl. by_name n team; [by rewrite Hc|done].
    + unfold League.matches; simpl. by_name n team; [by rewrite Hc|done].
    + rewrite team_in_league_insert. by_name n team.
      * rewrite orb_true_r. symmetry. apply team_in_league_true. by eexists.
      * by rewrite orb_false_r.
  - split; [done|]. apply bool_decide_eq_false_2. simpl. rewrite Hc.
    by intros [? ?].
Qed.

(** Adding to a team a season it already has changes nothing. *)
Theorem add_season_to_team_idempotent (self self' : League.t)
    (team season : string) :
  add_season_to_team self team season = Ok self' ->
  add_season_to_team self' team season = Ok self'.
Proof.
  destruct self as [ts].
  unfold add_season_to_team, dict_get; simpl.
  destruct (ts !! team) as [c|] eqn:Hc; [|done].
  rewrite bind_Ok. intros [= <-]. simpl.
  rewrite lookup_insert_eq, bind_Ok. simpl.
  rewrite insert_insert_eq. do 4 f_equal.
  apply set_eq. intros x. rewrite !elem_of_union. tauto.
Qed.

Lemma add_season_to_team_idempotent_witness :
  exists self',
    add_season_to_team Sample.league "C" "2012-13" = Ok self'
    /\ add_season_to_team self' "C" "2012-13" = Ok self'.
Proof.
  eexists. split; [vm_compute; reflexivity|].
  apply (add_season_to_team_idempotent Sample.league _ "C" "2012-13").
  vm_compute. reflexivity.
Defined.

Lemma ensure_team_spec (self : League.t) (t : string) :
  let self1 :=
    if League.team_in_league self t then self else (add_team self t).1 in
  League.team_in_league self1 t = true
  /\ forall n,
      League.matches self1 n = League.matches self n
      /\ team_seasons self1 n = team_seasons self n
      /\ League.team_in_league self1 n
         = League.team_in_league self n || bool_decide (n = t).
Proof.
  cbv zeta. destruct (League.team_in_league self t) eqn:Hin.
  - split; [done|]. intros n. split_and!; try done.
    case_bool_decide; subst; [by rewrite Hin|by rewrite orb_false_r].
  - pose proof (lookup_add_team self t) as Hl.
    assert (League._teams self !! t = None) as Hnone.
    { apply bool_decide_eq_false in Hin. by apply eq_None_not_Some. }
    split.
    + destruct (Hl t) as (_ & -> & _). rewrite bool_decide_eq_true_2 by done.
      by rewrite orb_true_r.
    + intros n. destruct (Hl n) as (_ & Hi & Hm & Hs). split_and!; [| |done].
      * rewrite Hm. case_bool_decide; subst; [|done].
        unfold League.matches. by rewrite Hnone.
      * rewrite Hs. case_bool_decide; subst; [|done].
        unfold team_seasons. by rewrite Hnone.
Qed.

Lemma append_match_spec (self : League.t) (t : string) (m : Match.t) :
  League.team_in_league self t = true ->
  exists self',
    append_match self t m = Ok self'
    /\ forall n,
        League.matches self' n
        = League.matches self n ++ (if bool_decide (n = t) then [m] else [])
        /\ team_seasons self' n = team_seasons self n
        /\ League.team_in_league self' n = League.team_in_league self n.
Proof.
  destruct self as [ts]. intros [c Hc]%team_in_league_true. simpl in Hc.
  unfold append_match, dict_get; simpl. rewrite Hc, bind_Ok.
  eexists. split; [done|]. intros n. split_and!.
  - unfold League.matches; simpl.
    by_name n t; [by rewrite Hc|by rewrite app_nil_r].
  - unfold team_seasons; simpl. by_name n t; [by rewrite Hc|done].
  - rewrite team_in_league_insert. by_name n t.
    + rewrite orb_true_r. symmetry. apply team_in_league_true. by eexists.
    + by rewrite orb_false_r.
Qed.

Lemma add_match_cells (self : League.t) (team1 team2 : string) (m : Match.t) :
  exists self',
    add_match self team1 team2 m = Ok self'
    /\ forall n,
        League.matches self' n
        = League.matches self n
          ++ (if bool_decide (n = team1) then [m] else [])
          ++ (if bool_decide (n = team2) then [m] else [])
        /\ team_seasons self' n = team_seasons self n
        /\ League.team_in_league self' n
           = League.team_in_league self n
             || bool_decide (n = team1) || bool_decide (n = team2).
Proof.
  unfold add_match.
  destruct (ensure_team_spec self team1) as [Hin1 H1].
  set (self1 := if League.team_in_league self team1 then self
                else (add_team self team1).1) in *.
  destruct (ensure_team_spec self1 team2) as [Hin2 H2].
  set (self2 := if League.team_in_league self1 team2 then self1
                else (add_team self1 team2).1) in *.
  assert (League.team_in_league self2 team1 = true) as Hin1'.
  { destruct (H2 team1) as (_ & _ & ->). by rewrite Hin1. }
  destruct (append_match_spec self2 team1 m Hin1') as (self3 & -> & H3).
  rewrite bind_Ok.
  assert (League.team_in_league self3 team2 = true) as Hin2'.
  { destruct (H3 team2) as (_ & _ & ->). done. }
  destruct (append_match_spec self3 team2 m Hin2') as (self4 & -> & H4).
  exists self4. split; [done|]. intros n.
  destruct (H1 n) as (Hm1 & Hs1 & Hi1), (H2 n) as (Hm2 & Hs2 & Hi2),
    (H3 n) as (Hm3 & Hs3 & Hi3), (H4 n) as (Hm4 & Hs4 & Hi4).
  split_and!.
  - by rewrite Hm4, Hm3, Hm2, Hm1, <- app_assoc.
  - by rewrite Hs4, Hs3, Hs2, Hs1.
  - by rewrite Hi4, Hi3, Hi2, Hi1.
Qed.

(** [add_match] never raises. It puts the two names in the league if they
    are not there, appends the match to the end of the match list of each
    (twice to the same list when the two names are equal), and changes no
    season and no other team. *)
Theorem add_match_spec (self : League.t) (team1 team2 : string) (m : Match.t) :
  exists self',
    add_match self team1 team2 m = Ok self'
    /\ forall n,
        League.matches self' n
        = League.matches self n
          ++ (if bool_decide (n = team1) then [m] else [])
          ++ (if bool_decide (n = team2) then [m] else [])
        /\ team_seasons self' n = team_seasons self n
        /\ League.team_in_league self' n
           = League.team_in_league self n
             || bool_decide (n = team1) || bool_decide (n = team2).
Proof.
  unfold add_match.
  destruct (ensure_team_spec self team1) as [Hin1 H1].
  set (self1 := if League.team_in_league self team1 then self
                else (add_team self team1).1) in *.
  destruct (ensure_team_spec self1 team2) as [Hin2 H2].
  set (self2 := if League.team_in_league self1 team2 then self1
                else (add_team self1 team2).1) in *.
  assert (League.team_in_league self2 team1 = true) as Hin1'.
  { destruct (H2 team1) as (_ & _ & ->). by rewrite Hin1. }
  destruct (append_match_spec self2 team1 m Hin1') as (self3 & -> & H3).
  rewrite bind_Ok.
  assert (League.team_in_league self3 team2 = true) as Hin2'.
  { destruct (H3 team2) as (_ & _ & ->). done. }
  destruct (append_match_spec self3 team2 m Hin2') as (self4 & -> & H4).
  exists self4. split; [done|]. intros n.
  destruct (H1 n) as (Hm1 & Hs1 & Hi1), (H2 n) as (Hm2 & Hs2 & Hi2),
    (H3 n) as (Hm3 & Hs3 & Hi3), (H4 n) as (Hm4 & Hs4 & Hi4).
  split_and!.
  - by rewrite Hm4, Hm3, Hm2, Hm1, <- app_assoc.
  - by rewrite Hs4, Hs3, Hs2, Hs1.
  - by rewrite Hi4, Hi3, Hi2, Hi1.
Qed.



Lemma League_init_wf : teams_wf League_init /\ details_wf League_init.
Proof.
  split; intros t m Hm; unfold League.matches, League_init in Hm;
    simpl in Hm; rewrite lookup_empty in Hm; by apply elem_of_nil in Hm.
Qed.


Lemma elem_of_team_names (self : League.t) (n : string) :
  n ∈ (map_to_list (League._teams self)).*1
  <-> League.team_in_league self n = true.
Proof.
  rewrite team_in_league_true, list_elem_of_fmap. split.
  - intros ([k c] & -> & Hin). apply elem_of_map_to_list in Hin. by eexists.
  - intros [c Hc]. exists (n, c). split; [done|]. by apply elem_of_map_to_list.
Qed.

Lemma elem_of_get_team_names (self : League.t) (season : string) (n : string) :
  (n ∈ get_team_names self None <-> League.team_in_league self n = true)
  /\ (n ∈ get_team_names self (Some season)
      <-> League.team_in_league self n = true /\ season ∈ team_seasons self n)
  /\ NoDup (get_team_names self None)
  /\ NoDup (get_team_names self (Some season))
  /\ get_team_names self (Some season) ⊆ get_team_names self None.
Proof.
  unfold get_team_names. split_and!.
  - apply elem_of_team_names.
  - rewrite list_elem_of_filter, elem_of_team_names. tauto.
  - apply NoDup_fst_map_to_list.
  - apply NoDup_filter, NoDup_fst_map_to_list.
  - intros x Hx. by apply list_elem_of_filter in Hx as [_ Hx].
Qed.

(** [get_team_names]: without a season the result holds exactly the names
    of the league; with a season, exactly the names of the league whose
    team has that season; no name is listed twice, and the names listed
    for a season are among those listed without one. *)
Theorem get_team_names_spec (self : League.t) (season : string) (n : string) :
  (n ∈ get_team_names self None <-> League.team_in_league self n = true)
  /\ (n ∈ get_team_names self (Some season)
      <-> League.team_in_league self n = true /\ season ∈ team_seasons self n)
  /\ NoDup (get_team_names self None)
  /\ NoDup (get_team_names self (Some season))
  /\ get_team_names self (Some season) ⊆ get_team_names self None.
Proof.
  unfold get_team_names. split_and!.
  - apply elem_of_team_names.
  - rewrite list_elem_of_filter, elem_of_team_names. tauto.
  - apply NoDup_fst_map_to_list.
  - apply NoDup_filter, NoDup_fst_map_to_list.
  - intros x Hx. by apply list_elem_of_filter in Hx as [_ Hx].
Qed.

(** After a successful [add_season_to_team] the team is listed for that
    season; after [add_match] the two names are listed. *)
Theorem names_listed_after_update
    (self : League.t) (team season team1 team2 : string) (m : Match.t) :
  (forall self',
      add_season_to_team self team season = Ok self' ->
      team ∈ get_team_names self' (Some season))
  /\ (forall self',
        add_match self team1 team2 m = Ok self' ->
        team1 ∈ get_team_names self' None /\ team2 ∈ get_team_names self' None).
Proof.
  split; intros self' H.
  - pose proof (add_season_to_team_cells self team season) as Hs.
    rewrite H in Hs. destruct Hs as [Hin Hs].
    apply (proj2 (proj1 (proj2 (elem_of_get_team_names self' season team)))).
    destruct (Hs team) as (-> & _ & ->). split; [done|].
    rewrite bool_decide_eq_true_2 by done.
    apply elem_of_union_l. by apply elem_of_singleton.
  - destruct (add_match_cells self team1 team2 m) as (self0 & H0 & Hspec).
    rewrite H in H0. injection H0 as <-.
    split.
    + apply (proj2 (proj1 (elem_of_get_team_names self' "" team1))).
      destruct (Hspec team1) as (_ & _ & ->).
      rewrite (bool_decide_eq_true_2 (team1 = team1)) by done.
      by rewrite orb_true_r.
    + apply (proj2 (proj1 (elem_of_get_team_names self' "" team2))).
      destruct (Hspec team2) as (_ & _ & ->).
      rewrite (bool_decide_eq_true_2 (team2 = team2)) by done.
      by rewrite orb_true_r.
Qed.

Lemma names_listed_after_update_witness :
  exists self',
    add_season_to_team Sample.league "C" "2012-13" = Ok self'
    /\ "C" ∈ get_team_names self' (Some "2012-13").
Proof.
  eexists. split; [vm_compute; reflexivity|].
  apply (names_listed_after_update Sample.league "C" "2012-13" "A" "B" Sample.mAB).
  vm_compute. reflexivity.
Defined.

(** The sample league is what the operations of [League] build from the
    seven matches, added in the order they were played. *)
Example Sample_league_built :
  (l1 ← add_match League_init "A" "B" Sample.mAB;
   l2 ← add_match l1 "A" "C" Sample.mAC;
   l3 ← add_match l2 "B" "C" Sample.mBC;
   l4 ← add_match l3 "A" "E" Sample.mAE;
   l5 ← add_match l4 "B" "E" Sample.mBE;
   l6 ← add_match l5 "B" "D" Sample.mBD;
   l7 ← add_match l6 "D" "A" Sample.mDA;
   l8 ← add_season_to_team l7 "A" Sample.s1011;
   l9 ← add_season_to_team l8 "B" Sample.s1011;
   l10 ← add_season_to_team l9 "C" Sample.s1011;
   l11 ← add_season_to_team l10 "D" Sample.s1011;
   l12 ← add_season_to_team l11 "E" Sample.s1011;
   l13 ← add_season_to_team l12 "A" "2011-12";
   add_season_to_team l13 "D" "2011-12")
  = Ok Sample.league.
Proof. vm_compute. reflexivity. Qed.

(** ** The enumerator misses no chain *)

Section Completeness.
Variable league : League.t.
Variables (away_team : string) (season : string) (depth : Z).

Abbreviation run_dfs := (dfs league away_team season depth).
Abbreviation search := (Search league away_team season depth).

Lemma dfs_runs fuel team at_home st :
  team ∉ visited st ->
  (1 <= fuel)%nat ->
  depth + 2 <= Z.of_nat (length (path st)) + Z.of_nat fuel ->
  exists new,
    run_dfs fuel team at_home st
    = Ok (mkDfs (paths st ++ new) (visited st) (path st)).
Proof.
  intros Hfresh Hf1 Hf.
  destruct (dfs_sound league away_team season depth (fun _ _ _ _ => True)
              (fun _ _ _ _ _ _ _ _ _ _ => I) fuel team at_home st)
    as (new & Hrun & _); try done.
  by exists new.
Qed.

Lemma Search_snoc team at_home vis p team' at_home' vis' q m :
  search team at_home vis p team' at_home' vis' q ->
  Z.of_nat (length q) <= depth ->
  path_complete away_team q = false ->
  m ∈ League.matches league team' ->
  skip_match season m (Match.get_other_team m team') at_home' ({[team']} ∪ vis')
  = false ->
  search team at_home vis p
    (Match.get_other_team m team') (negb at_home') ({[team']} ∪ vis') (q ++ [m]).
Proof.
  induction 1 as [team at_home vis p|team at_home vis p m0 t' a' v' q
                  Hlen Hc Hm Hskip _ IH]; intros Hlen' Hc' Hm' Hskip'.
  - eapply Search_hop; try done. constructor.
  - eapply Search_hop; try done. by apply IH.
Qed.

(** The loop of lines 127-137 records [q] when one of its matches leads
    to a call that records it. *)
Lemma loop_complete (rec : string -> bool -> DfsState -> Result DfsState)
    (body : Match.t -> DfsState -> Result DfsState) team at_home vis p m0 q :
  (forall m s,
      body m s =
      if skip_match season m (Match.get_other_team m team) at_home (visited s)
      then Ok s
      else rec (Match.get_other_team m team) (negb at_home) (path_append m s)
             ≫= path_pop) ->
  (forall m s,
      m ∈ League.matches league team ->
      visited s = vis -> path s = p ++ [m] ->
      skip_match season m (Match.get_other_team m team) at_home vis = false ->
      exists new,
        rec (Match.get_other_team m team) (negb at_home) s
        = Ok (mkDfs (paths s ++ new) vis (p ++ [m]))
        /\ (m = m0 -> q ∈ new)) ->
  skip_match season m0 (Match.get_other_team m0 team) at_home vis = false ->
  forall ms s,
    ms ⊆ League.matches league team ->
    visited s = vis -> path s = p ->
    exists new,
      for_each body ms s = Ok (mkDfs (paths s ++ new) vis p)
      /\ (m0 ∈ ms -> q ∈ new).
Proof.
  intros Hbody Hrec Hskip0.
  induction ms as [|m ms IH]; intros s Hsub Hv Hp.
  - exists []. rewrite app_nil_r. split; [|by intros ?%elem_of_nil].
    destruct s; simpl in *; by subst.
  - assert (m ∈ League.matches league team) as Hm by (apply Hsub; left).
    assert (ms ⊆ League.matches league team) as Hsub'
        by (intros x Hx; apply Hsub; by right).
    cbn [for_each]. rewrite Hbody, Hv.
    destruct (skip_match season m (Match.get_other_team m team) at_home vis)
      eqn:Hskip.
    + destruct (IH s Hsub' Hv Hp) as (new & Hrun & Hq).
      exists new. split; [done|].
      intros [->|Hin]%elem_of_cons; [congruence|by apply Hq].
    + destruct (Hrec m (path_append m s) Hm) as (new1 & Hrun1 & Hq1);
        [done | by simpl; rewrite Hp | done |].
      simpl in Hrun1. rewrite Hrun1.
      pose proof (path_pop_append (mkDfs (paths s ++ new1) vis p) m) as Hpop.
      simpl in Hpop. rewrite bind_Ok, Hpop.
      destruct (IH (mkDfs (paths s ++ new1) vis p) Hsub' eq_refl eq_refl)
        as (new2 & -> & Hq2).
      exists (new1 ++ new2). simpl. rewrite app_assoc. split; [done|].
      intros [->|Hin]%elem_of_cons; apply elem_of_app; [left|right]; auto.
Qed.

(** A call of [dfs] records every path that the hops can reach from it,
    that passes the depth guard and ends at the destination. *)
Lemma dfs_complete fuel : forall team at_home st team' at_home' vis' q,
  team ∉ visited st ->
  (1 <= fuel)%nat ->
  depth + 2 <= Z.of_nat (length (path st)) + Z.of_nat fuel ->
  search team at_home (visited st) (path st) team' at_home' vis' q ->
  Z.of_nat (length q) <= depth ->
  path_complete away_team q = true ->
  exists new,
    run_dfs fuel team at_home st
    = Ok (mkDfs (paths st ++ new) (visited st) (path st))
    /\ q ∈ new.
Proof.
  induction fuel as [|fuel IH];
    intros team at_home st team' at_home' vis' q Hfresh Hf1 Hf Hs Hlen Hc; [lia|].
  rewrite dfs_S.
  inversion Hs as [t a v p Ht Ha Hv Hp|t a v p m t' a' v' q' Hlenp Hcp Hm Hskip Hs'];
    subst.
  - destruct (Z.gtb_spec (Z.of_nat (length (path st))) depth) as [?|_]; [lia|].
    rewrite Hc. exists [path st]. split; [done|]. by apply list_elem_of_singleton.
  - destruct (Z.gtb_spec (Z.of_nat (length (path st))) depth) as [?|_]; [lia|].
    rewrite Hcp.
    match goal with |- context [for_each ?body _ _] =>
      destruct (loop_complete (run_dfs fuel) body team at_home
                  ({[team]} ∪ visited st) (path st) m q)
        with (ms := League.matches league team) (s := visited_add team st)
        as (new & -> & Hq); try done
    end.
    + intros m1 s Hm1 Hv1 Hp1 Hskip1.
      destruct (skip_match_false _ _ _ _ _ Hskip1) as (_ & Hnv & _).
      assert (Match.get_other_team m1 team ∉ visited s) as Hfresh1
          by (by rewrite Hv1).
      assert (depth + 2 <= Z.of_nat (length (path s)) + Z.of_nat fuel) as Hf'
          by (rewrite Hp1, length_app; simpl; lia).
      destruct (dfs_runs fuel (Match.get_other_team m1 team) (negb at_home) s)
        as (new & Hrun); [done|lia|done|].
      exists new. rewrite Hrun, Hv1, Hp1. split; [done|]. intros ->.
      destruct (IH (Match.get_other_team m team) (negb at_home) s
                  team' at_home' vis' q) as (new' & Hrun' & Hq');
        [done|lia|done|by rewrite Hv1, Hp1|done|done|].
      rewrite Hrun in Hrun'. injection Hrun' as Heq.
      apply app_inv_head in Heq. by subst.
    + rewrite bind_Ok. unfold visited_remove. simpl.
      rewrite bool_decide_eq_true_2
        by (apply elem_of_union_l; by apply elem_of_singleton).
      exists new. split; [|by apply Hq]. f_equal. f_equal.
      apply set_eq. intros x.
      rewrite elem_of_difference, elem_of_union, !elem_of_singleton.
      split; [tauto|]. intros Hx. split; [tauto|]. by intros ->.
Qed.
End Completeness.

Lemma Reach_Search league home_team away_team season depth team at_home vis p :
  Reach league home_team away_team season depth team at_home vis p ->
  Search league away_team season depth home_team true ∅ [] team at_home vis p.
Proof.
  induction 1 as [|team at_home vis p m _ IH Hlen Hc Hm Hskip]; [constructor|].
  by apply Search_snoc.
Qed.

Lemma returned_iff_Accepted league home_team away_team season depth chain :
  returned league home_team away_team season depth chain
  <-> Accepted league home_team away_team season depth chain.
Proof.
  split; [apply returned_Accepted|].
  intros (team & at_home & vis & Hreach & Hlen & Hc).
  apply Reach_Search in Hreach.
  destruct (dfs_complete league away_team season depth (dfs_fuel depth)
              home_team true (mkDfs [] ∅ []) team at_home vis chain)
    as (new & Hrun & Hin);
    [apply not_elem_of_empty | unfold dfs_fuel; lia
    | unfold dfs_fuel; simpl; lia | done | done | done |].
  exists new. split; [|done]. unfold _find_all_paths. by rewrite Hrun.
Qed.

(** The enumerator returns exactly the recorded chains of the search
    tree: a path built from the source by hops that stay in the season,
    enter no team already on the path and take the side the flag asks for,
    none of whose proper prefixes ends at the destination, is returned if
    and only if it has at most [depth] matches and the away side of its
    last match is the destination. *)
Theorem find_all_paths_exact league home_team away_team season depth chain :
  returned league home_team away_team season depth chain
  <-> Accepted league home_team away_team season depth chain.
Proof.
  split; [apply returned_Accepted|].
  intros (team & at_home & vis & Hreach & Hlen & Hc).
  apply Reach_Search in Hreach.
  destruct (dfs_complete league away_team season depth (dfs_fuel depth)
              home_team true (mkDfs [] ∅ []) team at_home vis chain)
    as (new & Hrun & Hin);
    [apply not_elem_of_empty | unfold dfs_fuel; lia
    | unfold dfs_fuel; simpl; lia | done | done | done |].
  exists new. split; [|done]. unfold _find_all_paths. by rewrite Hrun.
Qed.

Lemma Reach_depth_mono league home_team away_team season depth depth'
    team at_home vis p :
  depth <= depth' ->
  Reach league home_team away_team season depth team at_home vis p ->
  Reach league home_team away_team season depth' team at_home vis p.
Proof.
  intros Hd. induction 1 as [|team at_home vis p m _ IH Hlen Hc Hm Hskip];
    [constructor|].
  constructor; try done. lia.
Qed.

(** Raising the depth bound loses no chain. *)
Theorem find_all_paths_depth_mono
    league home_team away_team season depth depth' chain :
  depth <= depth' ->
  returned league home_team away_team season depth chain ->
  returned league home_team away_team season depth' chain.
Proof.
  intros Hd Hret. apply returned_iff_Accepted.
  apply returned_iff_Accepted in Hret
    as (team & at_home & vis & Hreach & Hlen & Hc).
  exists team, at_home, vis. split; [by eapply Reach_depth_mono|].
  split; [lia|done].
Qed.

Lemma find_all_paths_depth_mono_witness :
  returned Sample.league "A" "D" Sample.s1011 7
    [Sample.mAC; Sample.mBC; Sample.mBD].
Proof.
  apply (find_all_paths_depth_mono Sample.league "A" "D" Sample.s1011 4 7);
    [lia | apply Sample_returned_A_D].
Defined.

Lemma direct_match_chain league home_team away_team season depth m :
  1 <= depth ->
  m ∈ League.matches league home_team ->
  Match.season m = season ->
  Match.home_team m = home_team ->
  Match.away_team m = away_team ->
  home_team <> away_team ->
  returned league home_team away_team season depth [m].
Proof.
  intros Hd Hm Hs Hh Ha Hne. apply returned_iff_Accepted.
  assert (Match.get_other_team m home_team = away_team) as Hother.
  { unfold Match.get_other_team. by rewrite bool_decide_eq_true_2. }
  exists away_team, false, ({[home_team]} ∪ ∅). split; [|split].
  - assert (skip_match season m (Match.get_other_team m home_team) true
              ({[home_team]} ∪ ∅) = false) as Hskip.
    { rewrite Hother. unfold skip_match. simpl.
      rewrite (bool_decide_eq_true_2 (Match.season m = season)) by done.
      rewrite (bool_decide_eq_false_2 (away_team ∈ _)).
      - simpl. apply bool_decide_eq_false_2. congruence.
      - rewrite elem_of_union, elem_of_singleton, elem_of_empty.
        intros [?|[]]. congruence. }
    pose proof (Reach_step league home_team away_team season depth
                  home_team true ∅ [] m
                  (Reach_start league home_team away_team season depth)
                  ltac:(simpl; lia) eq_refl Hm Hskip) as Hreach.
    by rewrite Hother in Hreach.
  - simpl. lia.
  - unfold path_complete. simpl. by apply bool_decide_eq_true_2.
Qed.

(** A match of the source's list, played in the season, with the source at
    home and the destination, another team, away, is returned as a chain of
    its own for every depth bound of at least 1. *)
Theorem direct_match_returned league home_team away_team season depth m :
  1 <= depth ->
  m ∈ League.matches league home_team ->
  Match.season m = season ->
  Match.home_team m = home_team ->
  Match.away_team m = away_team ->
  home_team <> away_team ->
  returned league home_team away_team season depth [m].
Proof.
  intros Hd Hm Hs Hh Ha Hne. apply returned_iff_Accepted.
  assert (Match.get_other_team m home_team = away_team) as Hother.
  { unfold Match.get_other_team. by rewrite bool_decide_eq_true_2. }
  exists away_team, false, ({[home_team]} ∪ ∅). split; [|split].
  - assert (skip_match season m (Match.get_other_team m home_team) true
              ({[home_team]} ∪ ∅) = false) as Hskip.
    { rewrite Hother. unfold skip_match. simpl.
      rewrite (bool_decide_eq_true_2 (Match.season m = season)) by done.
      rewrite (bool_decide_eq_false_2 (away_team ∈ _)).
      - simpl. apply bool_decide_eq_false_2. congruence.
      - rewrite elem_of_union, elem_of_singleton, elem_of_empty.
        intros [?|[]]. congruence. }
    pose proof (Reach_step league home_team away_team season depth
                  home_team true ∅ [] m
                  (Reach_start league home_team away_team season depth)
                  ltac:(simpl; lia) eq_refl Hm Hskip) as Hreach.
    by rewrite Hother in Hreach.
  - simpl. lia.
  - unfold path_complete. simpl. by apply bool_decide_eq_true_2.
Qed.

Lemma direct_match_returned_witness :
  returned Sample.league "A" "B" Sample.s1011 1 [Sample.mAB].
Proof.
  apply (direct_match_returned Sample.league "A" "B" Sample.s1011 1 Sample.mAB);
    try done.
  unfold League.matches. vm_compute. left.
Defined.

(** ** When [predict] returns *)

Lemma predict_Ok_in_league home away season league q :
  predict home away season league = Ok q ->
  League.team_in_league league home = true
  /\ League.team_in_league league away = true.
Proof.
  unfold predict, League.get_team. rewrite !team_in_league_true.
  destruct (League._teams league !! home); [|done].
  destruct (League._teams league !! away); [|done].
  intros _. split; by eexists.
Qed.

(** With goal counts of at most [2 ^ 60], the signal of a chain of league
    matches is at most [2 ^ 61] times its length. *)
Lemma signal_bounded league chain :
  goals_bounded league ->
  Forall (fun m => exists t, m ∈ League.matches league t) chain ->
  - 2 ^ 61 * Z.of_nat (length chain) <= spec_signal chain
  <= 2 ^ 61 * Z.of_nat (length chain).
Proof.
  intros Hb. induction 1 as [|m chain [t Hm] _ IH]; [done|].
  change (spec_signal (m :: chain))
    with (full_time_goals_of m (Match.home_team m)
          - full_time_goals_of m (Match.away_team m) + spec_signal chain).
  assert (forall side, - 2 ^ 60 <= full_time_goals_of m side <= 2 ^ 60) as Hg.
  { intros side. unfold full_time_goals_of.
    destruct (Match.details m !! side) as [d|] eqn:Hd; [|lia].
    by apply (Hb t m side d). }
  pose proof (Hg (Match.home_team m)). pose proof (Hg (Match.away_team m)).
  cbn [length]. lia.
Qed.

Lemma bounded_fits league chains :
  goals_bounded league ->
  Forall (usable_chain league) chains ->
  Forall (fun c => fits_machine_int (spec_signal c) = true) chains.
Proof.
  intros Hb Hall. eapply Forall_impl; [exact Hall|].
  intros c (_ & Hlen & _ & Hin).
  pose proof (signal_bounded league c Hb Hin) as Hs.
  unfold fits_machine_int. apply andb_true_intro. split.
  - apply Z.leb_le. lia.
  - apply Z.ltb_lt. lia.
Qed.

(** What [predict] returns on a non-empty enumeration, for use below. *)
Lemma predict_returns home away season league chains :
  details_wf league ->
  goals_bounded league ->
  is_Some (League._teams league !! home) ->
  is_Some (League._teams league !! away) ->
  _find_all_paths league home away season PREDICTION_DEPTH = Ok chains ->
  chains <> [] ->
  predict home away season league = Ok (float_weighted_mean chains).
Proof.
  intros Hwf Hb Hh Ha Hps Hne.
  apply predict_float_mean; try done.
  apply (bounded_fits league); [done|]. by eapply returned_usable.
Qed.

(** In a league whose matches have the details of their two sides and goal
    counts of at most [2 ^ 60] in absolute value, [predict] returns a number
    exactly when the two names are in the league and the enumeration with
    depth 4 returns at least one chain; in every other case it raises. *)
Theorem predict_returns_iff home away season league :
  details_wf league ->
  goals_bounded league ->
  (exists q, predict home away season league = Ok q)
  <-> League.team_in_league league home = true
      /\ League.team_in_league league away = true
      /\ exists chain, returned league home away season PREDICTION_DEPTH chain.
Proof.
  intros Hwf Hb. split.
  - intros [q Hq]. destruct (predict_Ok_in_league _ _ _ _ _ Hq) as [Hh Ha].
    split; [done|]. split; [done|].
    destruct (predict_Ok_inv _ _ _ _ _ Hq) as (ps & Hps & _).
    destruct ps as [|c ps].
    + rewrite (predict_no_paths _ _ _ _ Hps) in Hq. by case_bool_decide.
    + exists c, (c :: ps). split; [done|]. left.
  - intros (Hh & Ha & chain & ps & Hps & Hin).
    apply team_in_league_true in Hh, Ha.
    exists (float_weighted_mean ps). apply predict_returns; try done.
    intros ->. by apply elem_of_nil in Hin.
Qed.

Lemma predict_returns_iff_witness :
  details_wf Sample.league
  /\ goals_bounded Sample.league
  /\ exists q, predict "A" "D" Sample.s1011 Sample.league = Ok q.
Proof.
  split; [apply Sample_details_wf|]. split; [apply Sample_goals_bounded|].
  apply (predict_returns_iff "A" "D" Sample.s1011 Sample.league);
    [apply Sample_details_wf|apply Sample_goals_bounded|].
  split; [vm_compute; reflexivity|]. split; [vm_compute; reflexivity|].
  eexists. apply Sample_returned_A_D.
Defined.

(** A direct match is enough for a prediction: in a league whose matches
    have the details of their two sides and goal counts of at most
    [2 ^ 60] in absolute value, if the source's list has a match of the
    season with the source at home and the destination, another team of the
    league, away, [predict] returns a number. *)
Theorem predict_with_direct_match home away season league m :
  details_wf league ->
  goals_bounded league ->
  League.team_in_league league away = true ->
  m ∈ League.matches league home ->
  Match.season m = season ->
  Match.home_team m = home ->
  Match.away_team m = away ->
  home <> away ->
  exists q, predict home away season league = Ok q.
Proof.
  intros Hwf Hb Ha Hm Hs Hh Haw Hne.
  destruct (direct_match_chain league home away season PREDICTION_DEPTH m)
    as (ps & Hps & Hin); try done.
  exists (float_weighted_mean ps). apply predict_returns; try done.
  - unfold League.matches in Hm.
    destruct (League._teams league !! home); [by eexists|].
    by apply elem_of_nil in Hm.
  - by apply team_in_league_true.
  - intros ->. by apply elem_of_nil in Hin.
Qed.

Lemma predict_with_direct_match_witness :
  exists q, predict "A" "B" Sample.s1011 Sample.league = Ok q.
Proof.
  apply (predict_with_direct_match "A" "B" Sample.s1011 Sample.league Sample.mAB);
    try done.
  - apply Sample_details_wf.
  - apply Sample_goals_bounded.
  - unfold League.matches. vm_compute. left.
Defined.

(** ** Chains are walks in the league *)

Lemma Reach_in_lists league home_team away_team season depth team at_home vis p :
  Reach league home_team away_team season depth team at_home vis p ->
  forall k m, p !! k = Some m ->
    exists t,
      chain_teams home_team p !! k = Some t
      /\ m ∈ League.matches league t.
Proof.
  induction 1 as [|team at_home vis p m0 Hreach IH _ _ Hm Hskip];
    intros k m Hk; [done|].
  destruct (Reach_teams _ _ _ _ _ _ _ _ _ Hreach) as (ts & Hts & _ & _).
  assert (length ts = length p) as Hlen.
  { pose proof (chain_teams_length home_team p) as Hl.
    rewrite Hts, length_app in Hl. simpl in Hl. lia. }
  rewrite (chain_teams_snoc _ _ m0 _ _ Hts).
  apply lookup_snoc_Some in Hk as [[Hlt Hk]|[-> <-]].
  - destruct (IH k m Hk) as (t & Ht & Hin). exists t.
    rewrite Hts in Ht. split; [by apply lookup_app_l_Some|done].
  - exists team. split; [|done].
    apply lookup_app_l_Some. rewrite <- Hlen. by apply list_lookup_middle.
Qed.

(** Every match of a returned chain is taken from the match list of the
    team the search stands on when it takes it: the source for the first
    match, the other side of the previous match for each later one. *)
Theorem returned_chain_is_walk league home_team away_team season depth chain :
  returned league home_team away_team season depth chain ->
  forall k m, chain !! k = Some m ->
    exists t,
      chain_teams home_team chain !! k = Some t
      /\ m ∈ League.matches league t
      /\ chain_teams home_team chain !! S k = Some (Match.get_other_team m t).
Proof.
  intros Hret k m Hk.
  destruct (returned_Accepted _ _ _ _ _ _ Hret) as (? & ? & ? & Hreach & _ & _).
  destruct (Reach_in_lists _ _ _ _ _ _ _ _ _ Hreach k m Hk) as (t & Ht & Hin).
  exists t. split; [done|]. split; [done|].
  clear Hret Hreach Hin. revert home_team k Ht Hk.
  induction chain as [|m' chain IH]; intros start k Ht Hk; [done|].
  destruct k as [|k]; simpl in *.
  - injection Ht as <-. injection Hk as <-. by destruct chain.
  - by apply IH.
Qed.

Lemma returned_chain_is_walk_witness :
  exists t,
    chain_teams "A" [Sample.mAC; Sample.mBC; Sample.mBD] !! 1%nat = Some t
    /\ Sample.mBC ∈ League.matches Sample.league t
    /\ chain_teams "A" [Sample.mAC; Sample.mBC; Sample.mBD] !! 2%nat
       = Some (Match.get_other_team Sample.mBC t).
Proof.
  apply (returned_chain_is_walk Sample.league "A" "D" Sample.s1011 4
           [Sample.mAC; Sample.mBC; Sample.mBD] Sample_returned_A_D
           1%nat Sample.mBC).
  reflexivity.
Defined.

Lemma Reach_first league home_team away_team season depth team at_home vis p :
  Reach league home_team away_team season depth team at_home vis p ->
  forall m, head p = Some m ->
    m ∈ League.matches league home_team
    /\ Match.season m = season
    /\ Match.home_team m = home_team.
Proof.
  induction 1 as [|team at_home vis p m0 Hreach IH _ _ Hm Hskip];
    intros m Hhead; [done|].
  destruct p as [|x p]; simpl in Hhead.
  - injection Hhead as <-.
    inversion Hreach as [Ht Ha Hv Hp|t0 a0 v0 p0 m1 H1 H2 H3 H4 H5 Ht Ha Hv Hp];
      subst.
    + destruct (skip_match_false _ _ _ _ _ Hskip) as (Hs & _).
      pose proof (get_other_team_step _ _ _ _ _ _ eq_refl Hskip) as [Hh _].
      done.
    + by destruct p0.
  - by apply IH.
Qed.

(** A source with no home match in the season has no chain, whatever the
    destination and the depth, and [predict] for it returns no number. *)
Theorem no_home_match_no_chain league home_team away_team season depth :
  (forall m, m ∈ League.matches league home_team ->
             Match.season m = season -> Match.home_team m <> home_team) ->
  _find_all_paths league home_team away_team season depth = Ok []
  /\ forall q, predict home_team away_team season league <> Ok q.
Proof.
  intros Hnone.
  assert (forall d, _find_all_paths league home_team away_team season d = Ok [])
    as Hempty.
  { intros d.
    destruct (find_all_paths_sound league home_team away_team season d)
      as (ps & -> & Hall).
    f_equal. destruct ps as [|p ps]; [done|]. exfalso.
    apply Forall_cons in Hall as [(team & at_home & vis & Hreach & _ & Hc) _].
    apply path_complete_last in Hc as (ml & Hlast & _).
    destruct p as [|m p]; [done|].
    destruct (Reach_first _ _ _ _ _ _ _ _ _ Hreach m eq_refl) as (Hm & Hs & Hh).
    by apply (Hnone m). }
  split; [apply Hempty|].
  intros q. rewrite (predict_no_paths _ _ _ _ (Hempty PREDICTION_DEPTH)).
  by case_bool_decide.
Qed.

Lemma no_home_match_no_chain_witness :
  _find_all_paths Sample.league "E" "A" Sample.s1011 4 = Ok [].
Proof.
  apply (no_home_match_no_chain Sample.league "E" "A" Sample.s1011 4).
  intros m Hm _. unfold League.matches in Hm. vm_compute in Hm.
  repeat (apply elem_of_cons in Hm as [->|Hm]); [done..|].
  by apply elem_of_nil in Hm.
Defined.

(** ** No chain is returned twice *)

Section Distinct.
Variable league : League.t.
Variables (away_team : string) (season : string) (depth : Z).
Hypothesis lists_NoDup : forall t, NoDup (League.matches league t).

Abbreviation run_dfs := (dfs league away_team season depth).

Lemma prefix_snoc_inj (p c : list Match.t) (m m' : Match.t) :
  (p ++ [m]) `prefix_of` c -> (p ++ [m']) `prefix_of` c -> m = m'.
Proof.
  intros [k1 ->] [k2 H]. rewrite <- !app_assoc in H.
  apply app_inv_head in H. simpl in H. congruence.
Qed.

Lemma loop_distinct (rec : string -> bool -> DfsState -> Result DfsState)
    (body : Match.t -> DfsState -> Result DfsState) team at_home vis p :
  (forall m s,
      body m s =
      if skip_match season m (Match.get_other_team m team) at_home (visited s)
      then Ok s
      else rec (Match.get_other_team m team) (negb at_home) (path_append m s)
             ≫= path_pop) ->
  (forall m s,
      m ∈ League.matches league team ->
      visited s = vis -> path s = p ++ [m] ->
      skip_match season m (Match.get_other_team m team) at_home vis = false ->
      exists new,
        rec (Match.get_other_team m team) (negb at_home) s
        = Ok (mkDfs (paths s ++ new) vis (p ++ [m]))
        /\ NoDup new /\ Forall (fun c => (p ++ [m]) `prefix_of` c) new) ->
  forall ms s,
    ms ⊆ League.matches league team -> NoDup ms ->
    visited s = vis -> path s = p ->
    exists new,
      for_each body ms s = Ok (mkDfs (paths s ++ new) vis p)
      /\ NoDup new
      /\ Forall (fun c => exists m, m ∈ ms /\ (p ++ [m]) `prefix_of` c) new.
Proof.
  intros Hbody Hrec.
  induction ms as [|m ms IH]; intros s Hsub Hnd Hv Hp.
  - exists []. rewrite app_nil_r. split; [|split; constructor].
    destruct s; simpl in *; by subst.
  - assert (m ∈ League.matches league team) as Hm by (apply Hsub; left).
    assert (ms ⊆ League.matches league team) as Hsub'
        by (intros x Hx; apply Hsub; by right).
    apply NoDup_cons in Hnd as [Hnotin Hnd].
    cbn [for_each]. rewrite Hbody, Hv.
    destruct (skip_match season m (Match.get_other_team m team) at_home vis)
      eqn:Hskip.
    + destruct (IH s Hsub' Hnd Hv Hp) as (new & Hrun & Hnew & Hpre).
      exists new. split; [done|]. split; [done|].
      eapply Forall_impl; [exact Hpre|]. intros c (m' & Hm' & Hc).
      exists m'. split; [by right|done].
    + destruct (Hrec m (path_append m s) Hm) as (new1 & Hrun1 & Hnd1 & Hpre1);
        [done | by simpl; rewrite Hp | done |].
      simpl in Hrun1. rewrite Hrun1.
      pose proof (path_pop_append (mkDfs (paths s ++ new1) vis p) m) as Hpop.
      simpl in Hpop. rewrite bind_Ok, Hpop.
      destruct (IH (mkDfs (paths s ++ new1) vis p) Hsub' Hnd eq_refl eq_refl)
        as (new2 & -> & Hnd2 & Hpre2).
      exists (new1 ++ new2). simpl. rewrite app_assoc. split; [done|]. split.
      * apply NoDup_app. split; [done|]. split; [|done].
        intros c Hc1 Hc2.
        apply (proj1 (Forall_forall _ _) Hpre1) in Hc1.
        apply (proj1 (Forall_forall _ _) Hpre2) in Hc2 as (m' & Hm' & Hc2).
        apply Hnotin. by rewrite (prefix_snoc_inj p c m m').
      * apply Forall_app. split.
        -- eapply Forall_impl; [exact Hpre1|]. intros c Hc.
           exists m. split; [left|done].
        -- eapply Forall_impl; [exact Hpre2|]. intros c (m' & Hm' & Hc).
           exists m'. split; [by right|done].
Qed.

Lemma dfs_distinct fuel : forall team at_home st,
  team ∉ visited st ->
  (1 <= fuel)%nat ->
  depth + 2 <= Z.of_nat (length (path st)) + Z.of_nat fuel ->
  exists new,
    run_dfs fuel team at_home st
    = Ok (mkDfs (paths st ++ new) (visited st) (path st))
    /\ NoDup new /\ Forall (fun c => path st `prefix_of` c) new.
Proof.
  induction fuel as [|fuel IH]; intros team at_home st Hfresh Hf1 Hf; [lia|].
  rewrite dfs_S.
  destruct (Z.gtb_spec (Z.of_nat (length (path st))) depth) as [Hgt|Hle].
  { exists []. rewrite app_nil_r. split; [by destruct st|]. split; constructor. }
  destruct (path_complete away_team (path st)) eqn:Hc.
  { exists [path st]. split; [done|]. split; [apply NoDup_singleton|].
    by constructor. }
  match goal with |- context [for_each ?body _ _] =>
    destruct (loop_distinct (run_dfs fuel) body team at_home
                ({[team]} ∪ visited st) (path st))
      with (ms := League.matches league team) (s := visited_add team st)
      as (new & -> & Hnd & Hpre); try done
  end.
  - intros m s Hm Hv Hp Hskip.
    destruct (skip_match_false _ _ _ _ _ Hskip) as (_ & Hnv & _).
    destruct (IH (Match.get_other_team m team) (negb at_home) s)
      as (new & Hrun & Hnd & Hpre).
    + by rewrite Hv.
    + lia.
    + rewrite Hp, length_app. simpl. lia.
    + exists new. by rewrite Hrun, Hv, Hp in *.
  - rewrite bind_Ok. unfold visited_remove. simpl.
    rewrite bool_decide_eq_true_2
      by (apply elem_of_union_l; by apply elem_of_singleton).
    exists new. split; [|split; [done|]].
    + f_equal. f_equal. apply set_eq. intros x.
      rewrite elem_of_difference, elem_of_union, !elem_of_singleton.
      split; [tauto|]. intros Hx. split; [tauto|]. by intros ->.
    + eapply Forall_impl; [exact Hpre|]. intros c (m & _ & Hpc).
      etrans; [|exact Hpc]. by apply prefix_app_r.
Qed.
End Distinct.

(** In a league where no team's list holds a match twice, the list that
    [_find_all_paths] returns holds no chain twice. *)
Theorem find_all_paths_NoDup league home_team away_team season depth ps :
  (forall t, NoDup (League.matches league t)) ->
  _find_all_paths league home_team away_team season depth = Ok ps ->
  NoDup ps.
Proof.
  intros Hnd Hps. unfold _find_all_paths in Hps.
  destruct (dfs_distinct league away_team season depth Hnd (dfs_fuel depth)
              home_team true (mkDfs [] ∅ []))
    as (new & Hrun & Hnew & _);
    [apply not_elem_of_empty | unfold dfs_fuel; lia
    | unfold dfs_fuel; simpl; lia |].
  rewrite Hrun, bind_Ok in Hps. by injection Hps as <-.
Qed.

Lemma Sample_lists_NoDup t : NoDup (League.matches Sample.league t).
Proof.
  assert (forall l : list Match.t,
            NoDup ((fun m => (Match.season m, Match.home_team m,
                              Match.away_team m)) <$> l) -> NoDup l) as Hkey
    by (intros l; apply NoDup_fmap_1).
  unfold League.matches, Sample.league, League._teams.
  repeat (rewrite lookup_insert; case_decide;
          [apply Hkey; compute_done|]).
  rewrite lookup_empty. constructor.
Qed.

Lemma find_all_paths_NoDup_witness :
  NoDup [[Sample.mAC; Sample.mBC; Sample.mBD];
         [Sample.mAE; Sample.mBE; Sample.mBD]].
Proof.
  apply (find_all_paths_NoDup Sample.league "A" "D" Sample.s1011 4).
  - apply Sample_lists_NoDup.
  - apply Sample_paths_A_D.
Defined.

(** ** Dicts in insertion order *)

Section Odict.
Context {K : Type} `{EqDecision K}.

Lemma odict_get_set (d : list (K * Z)) k v k' :
  odict_get (odict_set d k v) k'
  = if decide (k' = k) then Some v else odict_get d k'.
Proof.
  induction d as [|[k0 v0] d IH]; simpl.
  - by repeat case_decide.
  - destruct (decide (k = k0)) as [->|Hne]; simpl.
    + by repeat case_decide.
    + rewrite IH. repeat case_decide; congruence.
Qed.

Lemma odict_get_Some_keys (d : list (K * Z)) k :
  is_Some (odict_get d k) <-> k ∈ d.*1.
Proof.
  induction d as [|[k0 v0] d IH]; simpl.
  - split; [by intros [? ?]|by intros ?%elem_of_nil].
  - rewrite elem_of_cons. case_decide as Hk; [by split; eauto|].
    rewrite IH. split; [by right|]. by intros [?|?].
Qed.

Lemma odict_get_elem_of (d : list (K * Z)) k v :
  NoDup d.*1 -> (k, v) ∈ d -> odict_get d k = Some v.
Proof.
  induction d as [|[k0 v0] d IH]; simpl; intros Hnd Hin.
  - by apply elem_of_nil in Hin.
  - apply NoDup_cons in Hnd as [Hni Hnd].
    apply elem_of_cons in Hin as [[= -> ->]|Hin].
    + by rewrite decide_True.
    + case_decide as Hk; [|by apply IH]. subst. exfalso. apply Hni.
      apply list_elem_of_fmap. by exists (k0, v).
Qed.

Lemma odict_set_keys (d : list (K * Z)) k v :
  (odict_set d k v).*1 = if odict_get d k is Some _ then d.*1 else d.*1 ++ [k].
Proof.
  induction d as [|[k0 v0] d IH]; [done|]. cbn [odict_set odict_get].
  destruct (decide (k = k0)) as [->|Hne]; [done|].
  rewrite !fmap_cons, IH. by destruct (odict_get d k).
Qed.

Lemma odict_add_keys (d : list (K * Z)) k n :
  (odict_add d k n).*1 = if odict_get d k is Some _ then d.*1 else d.*1 ++ [k].
Proof.
  unfold odict_add. destruct (odict_get d k) as [v|] eqn:Hg; cbv zeta.
  - by rewrite odict_set_keys, Hg.
  - rewrite odict_set_keys, odict_get_set.
    rewrite (decide_True (P := k = k)) by done.
    by rewrite odict_set_keys, Hg.
Qed.

Lemma odict_add_NoDup (d : list (K * Z)) k n :
  NoDup d.*1 -> NoDup (odict_add d k n).*1.
Proof.
  intros Hnd. rewrite odict_add_keys.
  destruct (odict_get d k) as [v|] eqn:Hg; [done|].
  apply NoDup_app. split; [done|]. split; [|apply NoDup_singleton].
  intros x Hx ->%list_elem_of_singleton.
  apply odict_get_Some_keys in Hx as [? ?]. congruence.
Qed.

Lemma odict_add_key_in (d : list (K * Z)) k n k' :
  k' ∈ (odict_add d k n).*1 <-> k' ∈ d.*1 \/ k' = k.
Proof.
  rewrite odict_add_keys. destruct (odict_get d k) as [v|] eqn:Hg.
  - split; [by left|]. intros [?| ->]; [done|].
    apply odict_get_Some_keys. by eexists.
  - rewrite elem_of_app, list_elem_of_singleton. tauto.
Qed.

Lemma odict_get_add (d : list (K * Z)) k n k' :
  odict_get (odict_add d k n) k'
  = if decide (k' = k) then Some (default 0 (odict_get d k) + n)
    else odict_get d k'.
Proof.
  unfold odict_add. destruct (odict_get d k) as [v|] eqn:Hg; cbv zeta.
  - rewrite odict_get_set, Hg. done.
  - rewrite !odict_get_set. rewrite (decide_True (P := k = k)) by done. simpl.
    by repeat case_decide.
Qed.

Lemma odict_mass_set (P : K -> Prop) `{forall k, Decision (P k)}
    (d : list (K * Z)) k v :
  odict_mass P (odict_set d k v)
  = odict_mass P d
    + (if decide (P k) then v - default 0 (odict_get d k) else 0).
Proof.
  induction d as [|[k0 v0] d IH]; simpl.
  - case_decide; lia.
  - destruct (decide (k = k0)) as [->|Hne]; simpl.
    + case_decide; lia.
    + rewrite IH. repeat case_decide; lia.
Qed.

Lemma odict_mass_add (P : K -> Prop) `{forall k, Decision (P k)}
    (d : list (K * Z)) k n :
  odict_mass P (odict_add d k n)
  = odict_mass P d + (if decide (P k) then n else 0).
Proof.
  unfold odict_add. destruct (odict_get d k) as [v|] eqn:Hg; cbv zeta.
  - rewrite odict_mass_set, Hg. simpl. case_decide; lia.
  - rewrite odict_mass_set, odict_get_set.
    rewrite (decide_True (P := k = k)) by done.
    rewrite odict_mass_set, Hg. simpl. case_decide; lia.
Qed.

Lemma odict_mass_key (d : list (K * Z)) k :
  NoDup d.*1 -> odict_mass (fun k' => k' = k) d = default 0 (odict_get d k).
Proof.
  induction d as [|[k0 v0] d IH]; simpl; intros Hnd; [done|].
  apply NoDup_cons in Hnd as [Hni Hnd]. rewrite IH by done.
  destruct (decide (k0 = k)) as [->|Hne].
  - rewrite decide_True by done.
    destruct (odict_get d k) as [v|] eqn:Hg; simpl; [|lia].
    exfalso. apply Hni, odict_get_Some_keys. by eexists.
  - rewrite (decide_False (P := k = k0)) by congruence. lia.
Qed.
End Odict.

(** ** The two counting loops of [calculate_optimal_fouls] *)

Abbreviation tally fs foul_wins :=
  (foldl (fun (d : list (Z * Z)) (f : Z) => odict_add d f 1) foul_wins fs).

Abbreviation relabel foul_wins foul_range_wins :=
  (foldl (fun (d : list (string * Z)) (e : Z * Z) =>
            odict_add d (range_label e.1) e.2) foul_range_wins foul_wins).

Lemma count_win_collect_step team m (fw : list (Z * Z)) (fs0 : list Z) :
  match collect_win team m fs0 with
  | Ok fs1 =>
      (fs1 = fs0 /\ count_win team m fw = Ok fw)
      \/ exists f, fs1 = fs0 ++ [f] /\ count_win team m fw = Ok (odict_add fw f 1)
  | Raise e => count_win team m fw = Raise e
  end.
Proof.
  unfold collect_win, count_win.
  destruct (Match.result m) as [r|]; [|by left].
  destruct (bool_decide (Some r = team) || bool_decide (team = None)); [|by left].
  destruct (dict_get (Match.details m) _) as [d|e]; [|reflexivity].
  rewrite !bind_Ok. right. by eexists.
Qed.

(** The first loop counts what [won_fouls] collects, and raises when it
    does. *)
Lemma count_win_collect team ms : forall foul_wins fs0,
  match for_each (collect_win team) ms fs0 with
  | Ok fs =>
      exists new,
        fs = fs0 ++ new
        /\ for_each (count_win team) ms foul_wins = Ok (tally new foul_wins)
  | Raise e => for_each (count_win team) ms foul_wins = Raise e
  end.
Proof.
  induction ms as [|m ms IH]; intros fw fs0; cbn [for_each].
  - exists []. by rewrite app_nil_r.
  - pose proof (count_win_collect_step team m fw fs0) as Hstep.
    destruct (collect_win team m fs0) as [fs1|e]; [|by rewrite Hstep].
    destruct Hstep as [[-> ->]|(f & -> & ->)]; [apply IH|].
    specialize (IH (odict_add fw f 1) (fs0 ++ [f])).
    destruct (for_each (collect_win team) ms _) as [fs|e]; [|done].
    destruct IH as (new & -> & Hrun).
    exists (f :: new). by rewrite <- app_assoc.
Qed.

Lemma tally_keys fs : forall (d : list (Z * Z)) k,
  k ∈ (tally fs d).*1 <-> k ∈ d.*1 \/ k ∈ fs.
Proof.
  induction fs as [|f fs IH]; intros d k; simpl.
  - rewrite elem_of_nil. tauto.
  - rewrite IH, odict_add_key_in, elem_of_cons. tauto.
Qed.

Lemma tally_NoDup fs : forall (d : list (Z * Z)),
  NoDup d.*1 -> NoDup (tally fs d).*1.
Proof.
  induction fs as [|f fs IH]; intros d Hnd; simpl; [done|].
  by apply IH, odict_add_NoDup.
Qed.

Lemma tally_mass (P : Z -> Prop) `{forall k, Decision (P k)} fs :
  forall (d : list (Z * Z)),
    odict_mass P (tally fs d)
    = odict_mass P d + Z.of_nat (length (filter P fs)).
Proof.
  induction fs as [|f fs IH]; intros d; simpl; [lia|].
  rewrite IH, odict_mass_add, filter_cons. case_decide; simpl; lia.
Qed.

Lemma relabel_keys fw : forall (d : list (string * Z)) L,
  L ∈ (relabel fw d).*1
  <-> L ∈ d.*1 \/ exists e, e ∈ fw /\ L = range_label e.1.
Proof.
  induction fw as [|e fw IH]; intros d L; simpl.
  - split; [by left|]. intros [?|(e & He & _)]; [done|].
    by apply elem_of_nil in He.
  - rewrite IH, odict_add_key_in. split.
    + intros [[?| ->]|(e' & He' & ->)]; [by left| |].
      * right. exists e. split; [left|done].
      * right. exists e'. split; [by right|done].
    + intros [?|(e' & [->|He']%elem_of_cons & ->)]; [by left; left| |].
      * left. by right.
      * right. by exists e'.
Qed.

Lemma relabel_NoDup fw : forall (d : list (string * Z)),
  NoDup d.*1 -> NoDup (relabel fw d).*1.
Proof.
  induction fw as [|e fw IH]; intros d Hnd; simpl; [done|].
  by apply IH, odict_add_NoDup.
Qed.

Lemma relabel_mass (P : string -> Prop) `{forall k, Decision (P k)} fw :
  forall (d : list (string * Z)),
    odict_mass P (relabel fw d)
    = odict_mass P d + odict_mass (fun f => P (range_label f)) fw.
Proof.
  induction fw as [|e fw IH]; intros d; simpl; [lia|].
  rewrite IH, odict_mass_add. repeat case_decide; try done; lia.
Qed.

Lemma foldl_max_ge (ks : list Z) : forall k x,
  x ∈ k :: ks -> x <= foldl Z.max k ks.
Proof.
  induction ks as [|k' ks IH]; intros k x Hx; simpl.
  - apply list_elem_of_singleton in Hx as ->. lia.
  - apply elem_of_cons in Hx as [->|Hx].
    + etrans; [|apply IH; left]. lia.
    + apply elem_of_cons in Hx as [->|Hx].
      * etrans; [|apply IH; left]. lia.
      * apply IH. by right.
Qed.

(** [range_mappings] after the loop of lines 43-50: every foul count from 0
    up to the last multiple of 4 reached, plus 3, has the label of its
    range of four; no other key is there. *)
Lemma range_mappings_lookup (n : nat) (f : Z) :
  foldl (fun rm i => map_range i rm) ∅
    ((fun k => 4 * k) <$> seqZ 0 (Z.of_nat n)) !! f
  = if decide (0 <= f < 4 * Z.of_nat n) then Some (range_label f) else None.
Proof.
  induction n as [|n IH].
  - simpl. rewrite lookup_empty. case_decide; [lia|done].
  - rewrite seqZ_S, fmap_app, foldl_app, list_fmap_singleton.
    cbn [foldl]. unfold map_range in *.
    rewrite !lookup_insert, IH. unfold range_label.
    assert (forall r, 0 <= r < 4 ->
              (4 * (0 + Z.of_nat n) + r) / 4 = 0 + Z.of_nat n) as Hdiv.
    { intros r Hr. rewrite Z.add_comm, Z.mul_comm, Z.div_add by lia.
      rewrite Z.div_small by lia. lia. }
    pose proof (Hdiv 0 ltac:(lia)) as Hdiv0. rewrite Z.add_0_r in Hdiv0.
    repeat case_decide; try lia; subst; rewrite ?Hdiv, ?Hdiv0 by lia; done.
Qed.

Lemma range_mappings_max (M f : Z) :
  foldl (fun rm i => map_range i rm) ∅ (range_by_4 (M + 1)) !! f
  = if decide (0 <= f < 4 * ((M + 4) / 4)) then Some (range_label f) else None.
Proof.
  unfold range_by_4. replace (M + 1 + 3) with (M + 4) by lia.
  destruct (Z.le_gt_cases 0 ((M + 4) / 4)) as [Hn|Hn].
  - rewrite <- (Z2Nat.id ((M + 4) / 4)) by done. apply range_mappings_lookup.
  - rewrite seqZ_nil by lia. simpl. rewrite lookup_empty.
    case_decide; [lia|done].
Qed.

Lemma count_range_loop rm (fw : list (Z * Z)) :
  (forall e, e ∈ fw -> rm !! e.1 = Some (range_label e.1)) ->
  forall d, for_each (count_range rm) fw d = Ok (relabel fw d).
Proof.
  induction fw as [|e fw IH]; intros Hrm d; [done|].
  cbn [for_each foldl]. unfold count_range at 1.
  rewrite (Hrm e) by left. apply IH. intros e' He'. apply Hrm. by right.
Qed.

Lemma count_range_raises rm (fw : list (Z * Z)) :
  (forall e, e ∈ fw -> rm !! e.1 = Some (range_label e.1) \/ rm !! e.1 = None) ->
  (exists e, e ∈ fw /\ rm !! e.1 = None) ->
  forall d, for_each (count_range rm) fw d = Raise KeyError.
Proof.
  induction fw as [|e fw IH]; intros Hrm (e0 & He0 & Hnone) d.
  - by apply elem_of_nil in He0.
  - cbn [for_each]. unfold count_range at 1.
    destruct (Hrm e ltac:(left)) as [Hs|Hn]; [|by rewrite Hn].
    rewrite Hs. apply IH; [intros e' He'; apply Hrm; by right|].
    apply elem_of_cons in He0 as [->|He0]; [congruence|by exists e0].
Qed.

(** ** Sorting by count *)

Abbreviation by_count_desc :=
  (fun a b : string * Z * string => b.1.2 <= a.1.2).

Lemma insert_by_count_perm x l : insert_by_count x l ≡ₚ x :: l.
Proof.
  induction l as [|y l IH]; simpl; [done|].
  case_match; [done|]. rewrite IH. apply Permutation_swap.
Qed.

Lemma sorted_by_count_desc_perm l : sorted_by_count_desc l ≡ₚ l.
Proof.
  induction l as [|x l IH]; simpl; [done|].
  by rewrite insert_by_count_perm, IH.
Qed.

Lemma insert_by_count_sorted x l :
  StronglySorted by_count_desc l ->
  StronglySorted by_count_desc (insert_by_count x l).
Proof.
  induction 1 as [|y l Hs IH Hall]; simpl.
  - repeat constructor.
  - destruct (Z.leb_spec (y.1.2) (x.1.2)) as [Hle|Hgt].
    + constructor; [by constructor|]. constructor; [done|].
      eapply Forall_impl; [exact Hall|]. simpl. intros z Hz. lia.
    + constructor; [done|].
      rewrite insert_by_count_perm. constructor; [simpl; lia|done].
Qed.

Lemma sorted_by_count_desc_sorted l :
  StronglySorted by_count_desc (sorted_by_count_desc l).
Proof.
  induction l as [|x l IH]; simpl; [constructor|].
  by apply insert_by_count_sorted.
Qed.

Lemma StronglySorted_take (l : list (string * Z * string)) n :
  StronglySorted by_count_desc l -> StronglySorted by_count_desc (take n l).
Proof.
  intros Hs. revert n. induction Hs as [|x l Hs IH Hall]; intros [|n]; simpl;
    try constructor; [done|].
  apply Forall_forall. intros y Hy.
  apply (proj1 (Forall_forall _ _) Hall).
  apply elem_of_take in Hy as (i & Hi & _). by eapply list_elem_of_lookup_2.
Qed.

Lemma total_count_perm l1 l2 : l1 ≡ₚ l2 -> total_count l1 = total_count l2.
Proof.
  induction 1 as [|x l1 l2 _ IH|x y l|l1 l2 l3 _ IH1 _ IH2]; simpl in *; lia.
Qed.

Lemma total_count_take l n :
  Forall (fun e : string * Z * string => 0 <= e.1.2) l ->
  0 <= total_count (take n l) <= total_count l.
Proof.
  intros Hall. revert n. induction Hall as [|x l Hx Hall IH]; intros [|n];
    simpl; try lia.
  - assert (0 <= total_count l) by (specialize (IH 0%nat); simpl in IH; lia).
    lia.
  - specialize (IH n). lia.
Qed.

Lemma total_count_fmap (pct : Z -> string) (d : list (string * Z)) :
  total_count ((fun e : string * Z => (e.1, e.2, pct e.2)) <$> d)
  = odict_mass (fun _ => True) d.
Proof.
  unfold total_count, odict_mass.
  induction d as [|e d IH]; simpl; [done|]. f_equal. exact IH.
Qed.

(** ** What [calculate_optimal_fouls] does *)

Section OptimalFoulsFacts.
Variable get_all_matches : League.t -> list Match.t.
Variable percent_str : Z -> nat -> string.

Abbreviation calc := (calculate_optimal_fouls get_all_matches percent_str).
Abbreviation select := (select_matches get_all_matches).

Lemma range_bound (M : Z) : M < 4 * ((M + 4) / 4).
Proof.
  pose proof (Z.div_mod (M + 4) 4 ltac:(lia)).
  pose proof (Z.mod_pos_bound (M + 4) 4 ltac:(lia)). lia.
Qed.

(** The run of [calculate_optimal_fouls] once the matches are selected and
    the counted fouls are known. *)
Lemma calculate_optimal_fouls_run league team topx ms fs :
  select league team = Ok ms ->
  won_fouls team ms = Ok fs ->
  calc league team topx
  = if bool_decide (fs = []) then RaisesValueError
    else if bool_decide (Forall (fun f => 0 <= f) fs) then
      Returns
        (slice_to
           (sorted_by_count_desc
              ((fun e : string * Z => (e.1, e.2, percent_str e.2 (length ms)))
               <$> relabel (tally fs []) []))
           topx)
    else Raises KeyError.
Proof.
  intros Hsel Hwon. unfold calculate_optimal_fouls. rewrite Hsel.
  pose proof (count_win_collect team ms [] []) as Hc.
  unfold won_fouls in Hwon. rewrite Hwon in Hc.
  destruct Hc as (new & Heq & ->). simpl in Heq. subst new.
  destruct ((tally fs []).*1) as [|k ks] eqn:Hkeys.
  { rewrite bool_decide_eq_true_2; [done|].
    destruct fs as [|f fs]; [done|]. exfalso.
    assert (f ∈ (tally (f :: fs) []).*1) as Hin
      by (apply tally_keys; right; left).
    rewrite Hkeys in Hin. by apply elem_of_nil in Hin. }
  rewrite bool_decide_eq_false_2 by (by intros ->).
  set (M := foldl Z.max k ks).
  assert (forall e, e ∈ tally fs [] -> e.1 ∈ fs /\ e.1 <= M) as Hkey.
  { intros e He.
    assert (e.1 ∈ (tally fs []).*1) as Hin
      by (apply list_elem_of_fmap; by exists e).
    split.
    - apply tally_keys in Hin as [Hin|Hin]; [by apply elem_of_nil in Hin|done].
    - apply foldl_max_ge. by rewrite <- Hkeys. }
  pose proof (range_bound M) as HM.
  case_bool_decide as Hall.
  - rewrite count_range_loop; [done|]. intros e He.
    destruct (Hkey e He) as [Hin Hle].
    rewrite range_mappings_max, decide_True; [done|].
    split; [|lia]. by apply (proj1 (Forall_forall _ _) Hall).
  - rewrite count_range_raises; [done| |].
    + intros e He. rewrite range_mappings_max. case_decide; [by left|by right].
    + apply not_Forall_Exists in Hall; [|apply _].
      apply Exists_exists in Hall as (f & Hf & Hneg). simpl in Hneg.
      assert (f ∈ (tally fs []).*1) as Hin by (apply tally_keys; by right).
      apply list_elem_of_fmap in Hin as (e & -> & He).
      exists e. split; [done|].
      rewrite range_mappings_max, decide_False; [done|].
      intros [? _]. by apply Hneg.
Qed.

Lemma slice_to_take {A : Type} (l : list A) (stop : Z) :
  exists n, slice_to l stop = take n l /\ (0 <= stop -> n = Z.to_nat stop).
Proof.
  unfold slice_to. destruct (Z.leb_spec 0 stop).
  - by eexists.
  - eexists. split; [done|lia].
Qed.

Lemma calculate_optimal_fouls_Returns league team topx l :
  calc league team topx = Returns l ->
  exists ms fs,
    select league team = Ok ms
    /\ won_fouls team ms = Ok fs
    /\ fs <> []
    /\ Forall (fun f => 0 <= f) fs
    /\ l = slice_to
             (sorted_by_count_desc
                ((fun e : string * Z => (e.1, e.2, percent_str e.2 (length ms)))
                 <$> relabel (tally fs []) []))
             topx.
Proof.
  intros Hl.
  destruct (select league team) as [ms|e] eqn:Hsel;
    [|by unfold calculate_optimal_fouls in Hl; rewrite Hsel in Hl].
  destruct (won_fouls team ms) as [fs|e] eqn:Hwon.
  - rewrite (calculate_optimal_fouls_run _ _ _ _ _ Hsel Hwon) in Hl.
    repeat case_bool_decide; try done.
    exists ms, fs. split_and!; try done. by injection Hl.
  - pose proof (count_win_collect team ms [] []) as Hc.
    unfold won_fouls in Hwon. rewrite Hwon in Hc.
    unfold calculate_optimal_fouls in Hl. by rewrite Hsel, Hc in Hl.
Qed.

(** What the entries of the second dict are: one per label of a counted
    foul number, each label once, with the number of counted foul numbers
    that have this label. *)
Lemma relabel_entries (fs : list Z) L w :
  (L, w) ∈ relabel (tally fs []) [] ->
  (exists f, f ∈ fs /\ L = range_label f)
  /\ w = Z.of_nat (length (filter (fun f => range_label f = L) fs)).
Proof.
  intros Hin.
  assert (NoDup (tally fs []).*1) as Hnd1 by (apply tally_NoDup; constructor).
  assert (NoDup (relabel (tally fs []) []).*1) as Hnd2
    by (apply relabel_NoDup; constructor).
  split.
  - assert (L ∈ (relabel (tally fs []) []).*1) as HL
      by (apply list_elem_of_fmap; by exists (L, w)).
    apply relabel_keys in HL as [HL|(e & He & ->)];
      [by apply elem_of_nil in HL|].
    exists e.1. split; [|done].
    assert (e.1 ∈ (tally fs []).*1) as Hk
      by (apply list_elem_of_fmap; by exists e).
    apply tally_keys in Hk as [Hk|Hk]; [by apply elem_of_nil in Hk|done].
  - pose proof (odict_get_elem_of _ _ _ Hnd2 Hin) as Hget.
    pose proof (odict_mass_key (relabel (tally fs []) []) L Hnd2) as Hm.
    rewrite Hget in Hm. simpl in Hm. rewrite <- Hm.
    rewrite relabel_mass. simpl.
    rewrite (tally_mass (fun f => range_label f = L)). simpl. lia.
Qed.

(** [calculate_optimal_fouls] raises [KeyError] when the team name is not
    in the league or a counted match lacks the details that are read,
    [ValueError] when no match is counted (the team won none, or no match
    has a winner), [KeyError] when a counted foul number is negative, and
    returns in every other case. *)
Theorem calculate_optimal_fouls_outcome league team topx :
  match select league team with
  | Raise e => calc league team topx = Raises e
  | Ok ms =>
      match won_fouls team ms with
      | Raise e => calc league team topx = Raises e
      | Ok fs =>
          if bool_decide (fs = []) then calc league team topx = RaisesValueError
          else if bool_decide (Forall (fun f => 0 <= f) fs)
               then exists l, calc league team topx = Returns l
               else calc league team topx = Raises KeyError
      end
  end.
Proof.
  destruct (select league team) as [ms|e] eqn:Hsel;
    [|by unfold calculate_optimal_fouls; rewrite Hsel].
  destruct (won_fouls team ms) as [fs|e] eqn:Hwon.
  - rewrite (calculate_optimal_fouls_run _ _ _ _ _ Hsel Hwon).
    repeat case_bool_decide; try done. by eexists.
  - pose proof (count_win_collect team ms [] []) as Hc.
    unfold won_fouls in Hwon. rewrite Hwon in Hc.
    unfold calculate_optimal_fouls. by rewrite Hsel, Hc.
Qed.

(** A returned list is sorted by count, greatest first, names no range
    twice, and for [topx >= 0] has at most [topx] entries. *)
Theorem calculate_optimal_fouls_sorted league team topx l :
  calc league team topx = Returns l ->
  StronglySorted by_count_desc l
  /\ NoDup l.*1.*1
  /\ (0 <= topx -> (length l <= Z.to_nat topx)%nat).
Proof.
  intros (ms & fs & _ & _ & _ & _ & ->)%calculate_optimal_fouls_Returns.
  destruct (slice_to_take
              (sorted_by_count_desc
                 ((fun e : string * Z => (e.1, e.2, percent_str e.2 (length ms)))
                  <$> relabel (tally fs []) [])) topx) as (n & -> & Hn).
  split_and!.
  - apply StronglySorted_take, sorted_by_count_desc_sorted.
  - match goal with |- NoDup (take n ?X).*1.*1 =>
      assert ((take n X).*1.*1 `sublist_of` X.*1.*1) as Hsub
        by (do 2 apply fmap_sublist; apply sublist_take)
    end.
    refine (sublist_NoDup _ _ _ Hsub).
    rewrite sorted_by_count_desc_perm, <- !list_fmap_compose.
    apply (relabel_NoDup _ []). constructor.
  - intros Ht. rewrite length_take, Hn by done. lia.
Qed.

(** Every entry of a returned list carries the label of the range of a
    counted foul number, the number of counted foul numbers with that
    label, and the percentage string made from that number and the number
    of matches looked at. *)
Theorem calculate_optimal_fouls_entries league team topx ms fs l L w p :
  select league team = Ok ms ->
  won_fouls team ms = Ok fs ->
  calc league team topx = Returns l ->
  (L, w, p) ∈ l ->
  (exists f, f ∈ fs /\ 0 <= f /\ L = range_label f)
  /\ w = Z.of_nat (length (filter (fun f => range_label f = L) fs))
  /\ 0 < w
  /\ p = percent_str w (length ms).
Proof.
  intros Hsel Hwon Hl Hin.
  apply calculate_optimal_fouls_Returns in Hl
    as (ms' & fs' & Hsel' & Hwon' & _ & Hpos & ->).
  rewrite Hsel in Hsel'. injection Hsel' as <-.
  rewrite Hwon in Hwon'. injection Hwon' as <-.
  destruct (slice_to_take
              (sorted_by_count_desc
                 ((fun e : string * Z => (e.1, e.2, percent_str e.2 (length ms)))
                  <$> relabel (tally fs []) [])) topx) as (n & Heq & _).
  rewrite Heq in Hin.
  pose proof (elem_of_sublist _ _ _ Hin (sublist_take _ _)) as Hin'.
  rewrite sorted_by_count_desc_perm in Hin'.
  apply list_elem_of_fmap in Hin' as ([L' w'] & [= -> -> ->] & He).
  simpl in *. destruct (relabel_entries fs L' w' He) as [(f & Hf & ->) Hw].
  split_and!; try done.
  - exists f. split; [done|]. split; [|done].
    by apply (proj1 (Forall_forall _ _) Hpos).
  - rewrite Hw.
    assert (f ∈ filter (fun f' => range_label f' = range_label f) fs) as Hff
      by (by apply list_elem_of_filter).
    destruct (filter _ fs); [by apply elem_of_nil in Hff|]. simpl. lia.
Qed.

Lemma filter_True_length (fs : list Z) :
  length (filter (fun _ : Z => True) fs) = length fs.
Proof.
  induction fs as [|f fs IH]; [done|].
  rewrite filter_cons_True by done. simpl. by rewrite IH.
Qed.

(** The counts of a returned list add up to at most the number of counted
    matches, and to exactly that number when the list is shorter than
    [topx], that is when no range was cut off. *)
Theorem calculate_optimal_fouls_total league team topx ms fs l :
  select league team = Ok ms ->
  won_fouls team ms = Ok fs ->
  calc league team topx = Returns l ->
  0 <= total_count l <= Z.of_nat (length fs)
  /\ (0 <= topx -> (length l < Z.to_nat topx)%nat ->
      total_count l = Z.of_nat (length fs)).
Proof.
  intros Hsel Hwon Hl.
  apply calculate_optimal_fouls_Returns in Hl
    as (ms' & fs' & Hsel' & Hwon' & _ & _ & ->).
  rewrite Hsel in Hsel'. injection Hsel' as <-.
  rewrite Hwon in Hwon'. injection Hwon' as <-.
  set (opt := (fun e : string * Z => (e.1, e.2, percent_str e.2 (length ms)))
              <$> relabel (tally fs []) []).
  destruct (slice_to_take (sorted_by_count_desc opt) topx) as (n & -> & Hn).
  assert (total_count (sorted_by_count_desc opt) = Z.of_nat (length fs)) as Htot.
  { rewrite (total_count_perm _ _ (sorted_by_count_desc_perm opt)).
    unfold opt.
    rewrite (total_count_fmap (fun w => percent_str w (length ms))).
    rewrite relabel_mass. simpl.
    rewrite (tally_mass (fun _ => True)). simpl.
    by rewrite filter_True_length. }
  assert (Forall (fun e : string * Z * string => 0 <= e.1.2)
            (sorted_by_count_desc opt)) as Hnonneg.
  { apply Forall_forall. intros [[L w] p] Hin.
    rewrite sorted_by_count_desc_perm in Hin.
    apply list_elem_of_fmap in Hin as ([L' w'] & [= -> -> ->] & He).
    simpl in *. destruct (relabel_entries fs L' w' He) as [_ ->]. lia. }
  split.
  - rewrite <- Htot. by apply total_count_take.
  - intros Ht Hlt. rewrite length_take, Hn in Hlt by done.
    rewrite take_ge; [done|]. lia.
Qed.

Lemma won_fouls_no_win t ms :
  (forall m, m ∈ ms -> Match.result m <> Some t) ->
  forall fs0, for_each (collect_win (Some t)) ms fs0 = Ok fs0.
Proof.
  induction ms as [|m ms IH]; intros Hno fs0; [done|]. cbn [for_each].
  assert (collect_win (Some t) m fs0 = Ok fs0) as ->.
  { unfold collect_win. destruct (Match.result m) as [r|] eqn:Hr; [|done].
    rewrite (bool_decide_eq_false_2 (Some r = Some t)); [done|].
    intros [= ->]. by apply (Hno m ltac:(left)). }
  apply IH. intros m' Hm'. apply Hno. by right.
Qed.

(** For a team of the league that is the winner of no match of its list,
    [calculate_optimal_fouls] raises [ValueError]; for a name that is not
    in the league it raises [KeyError]. *)
Theorem calculate_optimal_fouls_no_win league t topx :
  (League.team_in_league league t = false ->
   calc league (Some t) topx = Raises KeyError)
  /\ (League.team_in_league league t = true ->
      (forall m, m ∈ League.matches league t -> Match.result m <> Some t) ->
      calc league (Some t) topx = RaisesValueError).
Proof.
  split.
  - intros Hout. unfold calculate_optimal_fouls, select_matches, League.get_team.
    apply bool_decide_eq_false in Hout.
    destruct (League._teams league !! t) eqn:Ht; [|done].
    exfalso. apply Hout. by eexists.
  - intros [c Hc]%team_in_league_true Hno.
    assert (select league (Some t) = Ok (League.matches league t)) as Hsel.
    { unfold select_matches, League.get_team. by rewrite Hc. }
    rewrite (calculate_optimal_fouls_run _ _ _ _ [] Hsel).
    + by rewrite bool_decide_eq_true_2.
    + by apply won_fouls_no_win.
Qed.
End OptimalFoulsFacts.

Lemma Fouls_run :
  select_matches Fouls.all_matches Fouls.league None
  = Ok [Fouls.m1; Fouls.m2; Fouls.m3; Fouls.m4; Fouls.m5; Fouls.m6]
  /\ won_fouls None [Fouls.m1; Fouls.m2; Fouls.m3; Fouls.m4; Fouls.m5; Fouls.m6]
     = Ok [9; 10; 13; 5; 13]
  /\ calculate_optimal_fouls Fouls.all_matches Fouls.percent Fouls.league None 2
     = Returns [("8 - 11", 2, "2/6"); ("12 - 15", 2, "2/6")]
  /\ calculate_optimal_fouls Fouls.all_matches Fouls.percent Fouls.league None 4
     = Returns [("8 - 11", 2, "2/6"); ("12 - 15", 2, "2/6"); ("4 - 7", 1, "1/6")].
Proof. split_and!; vm_compute; reflexivity. Qed.

Lemma calculate_optimal_fouls_sorted_witness :
  StronglySorted by_count_desc [("8 - 11", 2, "2/6"); ("12 - 15", 2, "2/6")].
Proof.
  apply (calculate_optimal_fouls_sorted Fouls.all_matches Fouls.percent
           Fouls.league None 2).
  apply Fouls_run.
Defined.

Lemma calculate_optimal_fouls_entries_witness :
  2 = Z.of_nat (length (filter (fun f => range_label f = "12 - 15")
                          [9; 10; 13; 5; 13])).
Proof.
  apply (calculate_optimal_fouls_entries Fouls.all_matches Fouls.percent
           Fouls.league None 2
           [Fouls.m1; Fouls.m2; Fouls.m3; Fouls.m4; Fouls.m5; Fouls.m6]
           [9; 10; 13; 5; 13]
           [("8 - 11", 2, "2/6"); ("12 - 15", 2, "2/6")]
           "12 - 15" 2 "2/6");
    [apply Fouls_run..|right; left].
Defined.

Lemma calculate_optimal_fouls_total_witness :
  total_count [("8 - 11", 2, "2/6"); ("12 - 15", 2, "2/6"); ("4 - 7", 1, "1/6")]
  = Z.of_nat (length [9; 10; 13; 5; 13]).
Proof.
  apply (calculate_optimal_fouls_total Fouls.all_matches Fouls.percent
           Fouls.league None 4
           [Fouls.m1; Fouls.m2; Fouls.m3; Fouls.m4; Fouls.m5; Fouls.m6]
           [9; 10; 13; 5; 13]);
    [apply Fouls_run..|lia|simpl; lia].
Defined.

Lemma calculate_optimal_fouls_no_win_witness :
  calculate_optimal_fouls Fouls.all_matches Fouls.percent Fouls.league
    (Some "B") 4 = RaisesValueError.
Proof.
  apply (calculate_optimal_fouls_no_win Fouls.all_matches Fouls.percent
           Fouls.league "B" 4).
  - vm_compute. reflexivity.
  - intros m Hm. unfold League.matches in Hm. vm_compute in Hm.
    repeat (apply elem_of_cons in Hm as [->|Hm]); [done..|].
    by apply elem_of_nil in Hm.
Defined.

(** ** What the enumerator and the prediction never do *)




(** The budget matters: with fewer nested calls than the search needs, the
    run is cut short. *)
Example dfs_out_of_fuel :
  dfs Sample.league "D" Sample.s1011 4 2 "A" true (mkDfs [] ∅ [])
  = Raise OutOfFuel.
Proof. by vm_compute. Qed.

(** In a league whose matches have the details of their two sides, the
    only exceptions of [predict] are [KeyError], raised exactly for a name
    that is not in the league, [ZeroDivisionError], raised exactly for two
    teams of the league with no chain between them, and [OverflowError],
    raised only when the signal of an enumerated chain is too large for a
    float. *)
Theorem predict_raises_which home away season league e :
  details_wf league ->
  predict home away season league = Raise e ->
  (e = KeyError
   /\ (League.team_in_league league home = false
       \/ League.team_in_league league away = false))
  \/ (e = ZeroDivisionError
      /\ League.team_in_league league home = true
      /\ League.team_in_league league away = true
      /\ _find_all_paths league home away season PREDICTION_DEPTH = Ok [])
  \/ (e = OverflowError
      /\ League.team_in_league league home = true
      /\ League.team_in_league league away = true
      /\ exists chain,
           returned league home away season PREDICTION_DEPTH chain
           /\ int_to_float (spec_signal chain) = Raise OverflowError).
Proof.
  intros Hwf He.
  destruct (League.team_in_league league home) eqn:Hh; cycle 1.
  { left. split; [|by left]. apply bool_decide_eq_false in Hh.
    unfold predict, League.get_team in He.
    destruct (League._teams league !! home) eqn:Hl; [|by injection He].
    exfalso. apply Hh. by eexists. }
  destruct (League.team_in_league league away) eqn:Ha; cycle 1.
  { left. split; [|by right]. apply bool_decide_eq_false in Ha.
    apply team_in_league_true in Hh as [c Hc].
    unfold predict, League.get_team in He. rewrite Hc, bind_Ok in He.
    destruct (League._teams league !! away) eqn:Hl; [|by injection He].
    exfalso. apply Ha. by eexists. }
  right.
  destruct (find_all_paths_sound league home away season PREDICTION_DEPTH)
    as (ps & Hps & _).
  apply team_in_league_true in Hh as Hh', Ha as Ha'.
  destruct ps as [|c ps].
  - left. rewrite (predict_no_paths _ _ _ _ Hps) in He.
    rewrite bool_decide_eq_true_2 in He by done. by injection He as <-.
  - right. rewrite (predict_average _ _ _ _ (c :: ps)) in He by done.
    apply np_average_raises in He as (-> & x & Hx & Hov).
    + split; [done|]. split; [done|]. split; [done|].
      apply list_elem_of_fmap in Hx as (chain & -> & Hin).
      exists chain. split; [by exists (c :: ps)|done].
    + by rewrite !length_map.
    + done.
    + apply (float_weights_pos league). by eapply returned_usable.
Qed.

Lemma predict_raises_which_witness :
  ZeroDivisionError = ZeroDivisionError
  /\ _find_all_paths Sample.league "D" "A" Sample.s1011 PREDICTION_DEPTH = Ok [].
Proof.
  destruct (predict_raises_which "D" "A" Sample.s1011 Sample.league
              ZeroDivisionError Sample_details_wf
              ltac:(vm_compute; reflexivity))
    as [[Hk _]|[(_ & _ & _ & Hps)|(Hk & _)]];
    [discriminate Hk| |discriminate Hk].
  split; [reflexivity|exact Hps].
Defined.
